(** * Purdue Engineering Employment Report: the data-generation and analysis
    pipeline of [main.py], shallowly embedded.

    The random source is numpy's legacy [RandomState] (MT19937 bit generator
    and its augmented state holding the cached Gaussian), written out as
    explicit state passing over the process-wide global state. Integers are
    [Z] with their 32- and 64-bit wrap-around written out; doubles are Rocq's
    primitive binary64 floats, the arithmetic numpy uses. *)

From Stdlib Require Import ZArith List Bool Lia String Ascii.
From Stdlib Require Import Floats Uint63.
Import ListNotations.

Open Scope Z_scope.

(** ** numpy legacy random state: MT19937 *)

Module NpRandom.

Definition RK_STATE_LEN : nat := 624.
Definition MT_M : nat := 397.
Definition MATRIX_A : Z := 2567483615.      (* 0x9908b0df *)
Definition UPPER_MASK : Z := 2147483648.    (* 0x80000000 *)
Definition LOWER_MASK : Z := 2147483647.    (* 0x7fffffff *)
Definition MASK32 : Z := 4294967295.       (* 0xffffffff *)

(** The global [RandomState]: the MT19937 key and position, and the
    augmented state of the legacy Gaussian sampler. *)
Record mt_state := mk_state {
  key : list Z;
  pos : nat;
  has_gauss : bool;
  gauss : float
}.

(** [mt19937_seed]: key[pos] = seed;
    seed = (1812433253 * (seed ^ (seed >> 30)) + pos + 1) & 0xffffffff. *)
Fixpoint seed_key (n : nat) (p : Z) (seed : Z) : list Z :=
  match n with
  | O => []
  | S n' =>
      seed :: seed_key n' (p + 1)
        (Z.land (1812433253 * Z.lxor seed (Z.shiftr seed 30) + p + 1) MASK32)
  end.

(** [RandomState.seed(seed)] for an integer seed: [_legacy_seeding] runs
    [mt19937_seed] (which sets [pos = RK_STATE_LEN]) and [_reset_gauss]
    clears the cached Gaussian. The whole previous state is overwritten. *)
Definition np_seed (seed : Z) (_ : mt_state) : mt_state :=
  {| key := seed_key RK_STATE_LEN 0 (Z.land seed MASK32);
     pos := RK_STATE_LEN; has_gauss := false; gauss := 0%float |}.

(** Seeds accepted by [_legacy_seeding] (it raises [ValueError] otherwise). *)
Definition valid_seed (seed : Z) : Prop := 0 <= seed <= MASK32.

Fixpoint replace_nth (i : nat) (l : list Z) (v : Z) : list Z :=
  match l, i with
  | [], _ => []
  | _ :: t, O => v :: t
  | h :: t, S i' => h :: replace_nth i' t v
  end.

(** One step of [mt19937_gen] at index [i]; the three loops of the C code
    read [key[i+M]], [key[i+(M-N)]] and, at [N-1], [key[0]] and [key[M-1]],
    which are all the index arithmetic below taken modulo [N]. The update is
    in place, so later steps see the words already rewritten. *)
Definition gen_step (k : list Z) (i : nat) : list Z :=
  let y := Z.lor (Z.land (nth i k 0) UPPER_MASK)
                 (Z.land (nth (Nat.modulo (i + 1) RK_STATE_LEN) k 0) LOWER_MASK) in
  let v := Z.lxor (Z.lxor (nth (Nat.modulo (i + MT_M) RK_STATE_LEN) k 0)
                          (Z.shiftr y 1))
                  (if Z.odd y then MATRIX_A else 0) in
  replace_nth i k v.

Fixpoint gen_loop (i n : nat) (k : list Z) : list Z :=
  match n with
  | O => k
  | S n' => gen_loop (S i) n' (gen_step k i)
  end.

Definition mt19937_gen (k : list Z) : list Z := gen_loop 0 RK_STATE_LEN k.

Definition temper (y0 : Z) : Z :=
  let y1 := Z.lxor y0 (Z.shiftr y0 11) in
  let y2 := Z.lxor y1 (Z.land (Z.shiftl y1 7) 2636928640) in   (* 0x9d2c5680 *)
  let y3 := Z.lxor y2 (Z.land (Z.shiftl y2 15) 4022730752) in  (* 0xefc60000 *)
  Z.lxor y3 (Z.shiftr y3 18).

(** [mt19937_next]: regenerate the key when [pos == RK_STATE_LEN], then
    temper [key[pos++]]. *)
Definition next_uint32 (s : mt_state) : Z * mt_state :=
  let k := if Nat.eqb (pos s) RK_STATE_LEN then mt19937_gen (key s) else key s in
  let p := if Nat.eqb (pos s) RK_STATE_LEN then O else pos s in
  (temper (nth p k 0),
   {| key := k; pos := S p; has_gauss := has_gauss s; gauss := gauss s |}).

Definition float_of_Z (z : Z) : float := of_uint63 (Uint63.of_Z z).

(** [mt19937_next_double]: a = next >> 5, b = next >> 6,
    (a * 67108864.0 + b) / 9007199254740992.0. *)
Definition next_double (s : mt_state) : float * mt_state :=
  let (x, s1) := next_uint32 s in
  let (y, s2) := next_uint32 s1 in
  (((float_of_Z (Z.shiftr x 5) * 67108864 + float_of_Z (Z.shiftr y 6))
      / 9007199254740992)%float, s2).

(** [gen_mask]: the smallest bit mask [>= max]. *)
Definition gen_mask (mx : Z) : Z :=
  let m1 := Z.lor mx (Z.shiftr mx 1) in
  let m2 := Z.lor m1 (Z.shiftr m1 2) in
  let m3 := Z.lor m2 (Z.shiftr m2 4) in
  let m4 := Z.lor m3 (Z.shiftr m3 8) in
  let m5 := Z.lor m4 (Z.shiftr m4 16) in
  Z.lor m5 (Z.shiftr m5 32).

(** Rejection loop of [buffered_bounded_masked_uint32]:
    [while ((val = (next_uint32(bitgen) & mask)) > rng);]. The loop is cut
    after [fuel] rejections (returning 0, i.e. [low]); every rejection has
    probability below 1/2, so the cut is never reached in practice. *)
Fixpoint masked_loop (fuel : nat) (rng mask : Z) (s : mt_state) : Z * mt_state :=
  match fuel with
  | O => (0, s)
  | S f =>
      let (v, s1) := next_uint32 s in
      let val := Z.land v mask in
      if val <=? rng then (val, s1) else masked_loop f rng mask s1
  end.

Definition REJECTION_FUEL : nat := 4096.

(** [RandomState.randint(low, high)] for the default int64 dtype on a range
    that fits in 32 bits ([_rand_int64] with [use_masked]); [high] is made
    inclusive by [high -= 1], then [random_bounded_uint64_fill] adds the
    offset in uint64 and the result is read back as int64. numpy raises
    [ValueError] when [low >= high]; every call in main.py has [low < high]. *)
Definition randint (low high : Z) (s : mt_state) : Z * mt_state :=
  let rng := high - 1 - low in
  let off := low mod 2 ^ 64 in
  let '(val, s1) :=
    if rng =? 0 then (0, s)
    else if rng =? MASK32 then next_uint32 s
    else masked_loop REJECTION_FUEL rng (gen_mask rng) s in
  let u := (off + val) mod 2 ^ 64 in
  (if u <? 2 ^ 63 then u else u - 2 ^ 64, s1).

(** [random_uniform]: [lower + range * next_double], with
    [range = high - low] computed once by [RandomState.uniform]. *)
Definition uniform (low high : float) (s : mt_state) : float * mt_state :=
  let range := (high - low)%float in
  let (d, s1) := next_double s in
  ((low + range * d)%float, s1).

Section Gauss.

(** The C library's natural logarithm, used by the polar method. *)
Variable log : float -> float.

(** The [do ... while (r2 >= 1.0 || r2 == 0.0)] loop of [legacy_gauss],
    cut after [fuel] rounds like [masked_loop]. *)
Fixpoint polar_loop (fuel : nat) (s : mt_state) : float * float * float * mt_state :=
  let (d1, s1) := next_double s in
  let (d2, s2) := next_double s1 in
  let x1 := (2 * d1 - 1)%float in
  let x2 := (2 * d2 - 1)%float in
  let r2 := (x1 * x1 + x2 * x2)%float in
  match fuel with
  | O => (x1, x2, r2, s2)
  | S f =>
      if (1 <=? r2)%float || (r2 =? 0)%float then polar_loop f s2
      else (x1, x2, r2, s2)
  end.

(** [legacy_gauss]: return the cached value if there is one, otherwise run
    the polar method, cache [f * x1] and return [f * x2]. *)
Definition legacy_gauss (s : mt_state) : float * mt_state :=
  if has_gauss s then
    (gauss s, {| key := key s; pos := pos s; has_gauss := false; gauss := 0%float |})
  else
    let '(x1, x2, r2, s1) := polar_loop REJECTION_FUEL s in
    let f := PrimFloat.sqrt ((- 2 * log r2) / r2)%float in
    ((f * x2)%float,
     {| key := key s1; pos := pos s1; has_gauss := true; gauss := (f * x1)%float |}).

(** [legacy_normal]: [loc + scale * legacy_gauss]. *)
Definition normal (loc scale : float) (s : mt_state) : float * mt_state :=
  let (g, s1) := legacy_gauss s in ((loc + scale * g)%float, s1).

End Gauss.

(** A [size=n] request: [n] draws filled in order from the global state. *)
Fixpoint draws {A : Type} (n : nat) (f : mt_state -> A * mt_state) (s : mt_state)
  : list A * mt_state :=
  match n with
  | O => ([], s)
  | S n' => let (x, s1) := f s in let (xs, s2) := draws n' f s1 in (x :: xs, s2)
  end.

End NpRandom.

Import NpRandom.

(** ** The report program *)

Module Report.

Open Scope string_scope.

Record EmployerRecord := mk_employer {
  Company : string;
  emp_Graduates : Z
}.

Record SkillFrequencyRecord := mk_skill {
  skill_Job_Title : string;
  Skill : string;
  Frequency : Z
}.

Record MajorCountRecord := mk_major {
  major_Job_Title : string;
  Major : string;
  Count : Z
}.

Record RegressionSample := mk_sample {
  Skill_Score : float;
  reg_Graduates : float
}.

(** The quantities of the fitted statsmodels result that main.py reads:
    [params["const"]], [params["Skill_Score"]], [pvalues["Skill_Score"]]. *)
Record FittedModel := mk_model {
  const : float;
  coef : float;
  pval : float
}.

Definition companies : list string :=
  ["Google"; "Microsoft"; "Boeing"; "General Electric"; "Apple"; "Lockheed Martin";
   "Northrop Grumman"; "Amazon"; "IBM"; "Intel"].

(** The [job_titles] dict, in insertion order. *)
Definition job_titles : list (string * list string) :=
  [("Software Engineer", ["Python"; "Java"; "C++"; "SQL"; "JavaScript"]);
   ("Data Scientist", ["Python"; "R"; "SQL"; "Machine Learning"; "Data Visualization"]);
   ("Aerospace Engineer", ["CAD"; "Aerodynamics"; "Materials"; "Systems Engineering"; "Flight Dynamics"]);
   ("Electrical Engineer", ["Circuit Design"; "Embedded Systems"; "Signal Processing"; "MATLAB"; "VHDL"]);
   ("Mechanical Engineer", ["CAD"; "Thermal Systems"; "Materials"; "Finite Element Analysis"; "Dynamics"])].

(** The [majors_options] dict, in insertion order. *)
Definition majors_options : list (string * list string) :=
  [("Software Engineer", ["Computer Engineering"; "Software Engineering"; "Electrical Engineering"]);
   ("Data Scientist", ["Computer Engineering"; "Electrical Engineering"; "Mathematics"; "Statistics"]);
   ("Aerospace Engineer", ["Aerospace Engineering"; "Mechanical Engineering"; "Materials Science"]);
   ("Electrical Engineer", ["Electrical Engineering"; "Computer Engineering"; "Physics"]);
   ("Mechanical Engineer", ["Mechanical Engineering"; "Aerospace Engineering"; "Industrial Engineering"])].

Definition n_obs : nat := 50.

(** The seed literal passed to both [np.random.seed] calls (42 in main.py). *)
Definition SEED : Z := 42.

(** The markdown template of section 6, before [.format]. *)
Definition recommendations_template : string :=
"
Based on the regression analysis:
- **Coefficient Interpretation**: The estimated coefficient for **Skill Score** is approximately **{coef:.2f}** (p-value: {pval:.3f}). 
  This suggests that for each additional point in the skill score, the number of recruited graduates increases by about **{coef:.2f}** on average.
- **Implication**: Enhancing technical training (e.g., in programming, machine learning, CAD) can potentially drive higher recruitment numbers.
  
**Recommendations for Administration**:
1. **Curriculum Enhancement**: Expand and update technical courses focusing on high-impact skills to boost the overall technical skill score of graduates.
2. **Targeted Training Programs**: Implement workshops and certifications in key areas identified by the regression analysis.
3. **Industry Partnerships**: Foster closer ties with companies that value these skills to provide real-world projects and internship opportunities.
4. **Ongoing Evaluation**: Regularly analyze graduate outcomes with updated data to continuously refine training programs and maintain industry relevance.
".

(** Lines 25-30: [np.random.seed(seed)];
    [graduates = np.random.randint(50, 200, size=len(companies))];
    [companies_data = pd.DataFrame({"Company": companies, "Graduates": graduates})]. *)
Definition gen_companies_data (seed : Z) (s : mt_state) : list EmployerRecord * mt_state :=
  let s1 := np_seed seed s in
  let (graduates, s2) := draws (List.length companies) (randint 50 200) s1 in
  (map (fun cg => mk_employer (fst cg) (snd cg)) (combine companies graduates), s2).

(** The inner [for] loop of lines 43-45 and 59-61: one
    [np.random.randint(lo, hi)] per value, in list order. *)
Fixpoint inner_rows {R : Type} (lo hi : Z) (mk : string -> string -> Z -> R)
    (job : string) (vals : list string) (s : mt_state) : list R * mt_state :=
  match vals with
  | [] => ([], s)
  | v :: vs =>
      let (x, s1) := randint lo hi s in
      let (rest, s2) := inner_rows lo hi mk job vs s1 in
      (mk job v x :: rest, s2)
  end.

(** The outer [for job, values in d.items()] loop, appending to one list. *)
Fixpoint outer_rows {R : Type} (lo hi : Z) (mk : string -> string -> Z -> R)
    (d : list (string * list string)) (s : mt_state) : list R * mt_state :=
  match d with
  | [] => ([], s)
  | (job, vals) :: d' =>
      let (rows, s1) := inner_rows lo hi mk job vals s in
      let (rest, s2) := outer_rows lo hi mk d' s1 in
      (List.app rows rest, s2)
  end.

(** Lines 41-46. *)
Definition gen_skillset_data (s : mt_state) : list SkillFrequencyRecord * mt_state :=
  outer_rows 40 150 mk_skill job_titles s.

(** Lines 57-62. *)
Definition gen_majors_data (s : mt_state) : list MajorCountRecord * mt_state :=
  outer_rows 20 100 mk_major majors_options s.

Section Pipeline.

(** The libraries main.py hands work to: libm's [log] (inside numpy's
    Gaussian sampler), statsmodels' [OLS(y, add_constant(x)).fit()], and
    Python's [format(value, ".Nf")]. *)
Variable log : float -> float.
Variable ols_fit : list float -> list float -> FittedModel.
Variable format_fixed : nat -> float -> string.

(** Lines 112-120: reseed, draw the scores, then the noise;
    [graduates_synthetic = 50 + 3 * skill_score + noise] elementwise. *)
Definition gen_causal_data (seed : Z) (s : mt_state) : list RegressionSample * mt_state :=
  let s1 := np_seed seed s in
  let (skill_score, s2) := draws n_obs (uniform 20 100) s1 in
  let (noise, s3) := draws n_obs (normal log 0 15) s2 in
  let graduates_synthetic :=
    map (fun xe => (50 + 3 * fst xe + snd xe)%float) (combine skill_score noise) in
  (map (fun xy => mk_sample (fst xy) (snd xy)) (combine skill_score graduates_synthetic), s3).

(** Line 124. *)
Definition fit_model (causal_data : list RegressionSample) : FittedModel :=
  ols_fit (map reg_Graduates causal_data) (map Skill_Score causal_data).

(** Line 135: [model.params["const"] + model.params["Skill_Score"] * causal_data["Skill_Score"]]. *)
Definition reg_line (model : FittedModel) (causal_data : list RegressionSample) : list float :=
  map (fun x => (const model + coef model * x)%float) (map Skill_Score causal_data).

(** Line 136: the points of the [px.line(x=..., y=reg_line)] trace, in the
    order they are passed. *)
Definition reg_line_trace (model : FittedModel) (causal_data : list RegressionSample)
  : list (float * float) :=
  combine (map Skill_Score causal_data) (reg_line model causal_data).

(** [str.format] with keyword arguments, for replacement fields
    [{name:.Nf}] (a plain keyword name, a precision of one or more digits)
    and the escapes [{{] and [}}], the only forms in the report's template.
    [None] stands for the error Python raises on a missing key, an unmatched
    brace or a bad spec, and also for the field forms left out of the model
    ([{name}], [!r] conversions, attribute and index access, other specs),
    which Python accepts. *)
Fixpoint split_colon (f : string) : string * string :=
  match f with
  | EmptyString => (EmptyString, EmptyString)
  | String c r =>
      if Ascii.eqb c ":" then (EmptyString, r)
      else let (a, b) := split_colon r in (String c a, b)
  end.

Fixpoint lookup_kw (name : string) (kw : list (string * float)) : option float :=
  match kw with
  | [] => None
  | (k, v) :: kw' => if String.eqb k name then Some v else lookup_kw name kw'
  end.

Definition digit_value (c : ascii) : option nat :=
  let n := nat_of_ascii c in
  if (48 <=? n)%nat && (n <=? 57)%nat then Some (n - 48)%nat else None.

Fixpoint parse_precision (acc : nat) (s : string) : option nat :=
  match s with
  | EmptyString => None
  | String c EmptyString => if Ascii.eqb c "f" then Some acc else None
  | String c r =>
      match digit_value c with
      | Some n => parse_precision (acc * 10 + n) r
      | None => None
      end
  end.

(** The spec [.Nf]: a dot, the digits of [N], then the type [f]. *)
Definition fixed_precision (spec : string) : option nat :=
  match spec with
  | String dot (String d r) =>
      if Ascii.eqb dot "." then
        match digit_value d with
        | Some n => parse_precision n r
        | None => None
        end
      else None
  | _ => None
  end.

Definition render_field (kw : list (string * float)) (field : string) : option string :=
  let (name, spec) := split_colon field in
  match lookup_kw name kw with
  | Some v => option_map (fun n => format_fixed n v) (fixed_precision spec)
  | None => None
  end.

Fixpoint format_scan (kw : list (string * float)) (field : option string) (s : string)
  : option string :=
  match s, field with
  | EmptyString, None => Some EmptyString
  | EmptyString, Some _ => None
  | String c r, None =>
      if Ascii.eqb c "{" then
        match r with
        | String c' r' =>
            if Ascii.eqb c' "{" then option_map (String c) (format_scan kw None r')
            else format_scan kw (Some EmptyString) r
        | EmptyString => None
        end
      else if Ascii.eqb c "}" then
        match r with
        | String c' r' =>
            if Ascii.eqb c' "}" then option_map (String c) (format_scan kw None r')
            else None
        | EmptyString => None
        end
      else option_map (String c) (format_scan kw None r)
  | String c r, Some f =>
      if Ascii.eqb c "}" then
        match render_field kw f, format_scan kw None r with
        | Some a, Some b => Some (String.append a b)
        | _, _ => None
        end
      else format_scan kw (Some (String.append f (String c EmptyString))) r
  end.

Definition py_format (template : string) (kw : list (string * float)) : option string :=
  format_scan kw None template.

(** Lines 143-154. *)
Definition recommendations (model : FittedModel) : option string :=
  py_format recommendations_template [("coef", coef model); ("pval", pval model)].

Record ReportOut := mk_report {
  companies_data : list EmployerRecord;
  skillset_data : list SkillFrequencyRecord;
  majors_data : list MajorCountRecord;
  causal_data : list RegressionSample;
  model : FittedModel;
  fitted : list float;
  fitted_trace : list (float * float);
  recommendation : option string
}.

(** The whole script, run from the global state [s] it starts in, with the
    seed literal [seed] at both [np.random.seed] calls. The charts read the
    tables and draw nothing from the random state. *)
Definition main_with_seed (seed : Z) (s : mt_state) : ReportOut * mt_state :=
  let (cd, s1) := gen_companies_data seed s in
  let (sd, s2) := gen_skillset_data s1 in
  let (md, s3) := gen_majors_data s2 in
  let (causal, s4) := gen_causal_data seed s3 in
  let m := fit_model causal in
  ({| companies_data := cd; skillset_data := sd; majors_data := md;
      causal_data := causal; model := m; fitted := reg_line m causal;
      fitted_trace := reg_line_trace m causal; recommendation := recommendations m |},
   s4).

Definition main (s : mt_state) : ReportOut * mt_state := main_with_seed SEED s.

(** The four generated tables. *)
Definition tables (r : ReportOut) :=
  (companies_data r, skillset_data r, majors_data r, causal_data r).

End Pipeline.

End Report.

(** ** Properties the claims speak of *)

(** A list of floats in ascending order (each neighbour pair [<=]). *)
Fixpoint sorted_floats (l : list float) : bool :=
  match l with
  | x :: ((y :: _) as t) => (x <=? y)%float && sorted_floats t
  | _ => true
  end.

(** A trace of [(x, y)] points sorted by [x] ascending. *)
Definition sorted_by_x (pts : list (float * float)) : bool := sorted_floats (map fst pts).

(** [t] occurs in [s] as a contiguous substring. *)
Definition contains (s t : string) : Prop :=
  exists pre post, s = String.append pre (String.append t post).

Import Report.
Open Scope Z_scope.

(** A 32-bit word. *)
Definition word32 (x : Z) : Prop := 0 <= x < 2 ^ 32.

(** The shape the MT19937 state keeps: 624 32-bit key words and a position
    in [[0, 624]]. *)
Definition mt_wf (s : mt_state) : Prop :=
  List.length (key s) = RK_STATE_LEN /\ Forall word32 (key s) /\ (pos s <= RK_STATE_LEN)%nat.

(** The [(job, value)] pairs the nested loops of lines 42-45 and 58-61 walk
    through, in dict and list order. *)
Definition config_pairs (d : list (string * list string)) : list (string * string) :=
  flat_map (fun jv => map (fun v => (fst jv, v)) (snd jv)) d.

(** Over the samples in order, a larger score (in the order [lt]) gives a
    larger fitted value (in the same order): [xs] the scores, [ys] the
    fitted values, matched by position. *)
Definition monotone_in (lt : float -> float -> bool) (xs ys : list float) : Prop :=
  forall (i j : nat) (xi xj yi yj : float),
    nth_error xs i = Some xi -> nth_error xs j = Some xj ->
    nth_error ys i = Some yi -> nth_error ys j = Some yj ->
    lt xi xj = true -> lt yi yj = true.

(** A three-sample regression table, [(1, 52)], [(2, 52)], [(3, 52 + 2^-47)]. *)
Definition tie_table : list RegressionSample :=
  [mk_sample 1 52; mk_sample 2 52; mk_sample 3 (52 + 1 / 140737488355328)]%float.

(** Its least-squares fit: the exact intercept [52 - 2/3 * 2^-47] rounds to
    [52 - 2^-47], the exact slope is [2^-48]. [reg_line] reads no p-value. *)
Definition tie_fit : FittedModel :=
  mk_model (52 - 1 / 140737488355328) (1 / 281474976710656) 0.

(** ** The heatmap of line 92 *)

(** Python's [sorted(set(...))] on strings, the order pandas gives the index
    and the columns of a pivot (code-point order, which is [String.ltb]). *)
Fixpoint insert_sorted (x : string) (l : list string) : list string :=
  match l with
  | [] => [x]
  | y :: t =>
      if String.eqb x y then l
      else if String.ltb x y then x :: l
      else y :: insert_sorted x t
  end.

Definition sorted_unique (l : list string) : list string := fold_right insert_sorted [] l.

Fixpoint has_dup {A : Type} (eqb : A -> A -> bool) (l : list A) : bool :=
  match l with
  | [] => false
  | x :: t => existsb (eqb x) t || has_dup eqb t
  end.

Definition pair_eqb (p q : string * string) : bool :=
  String.eqb (fst p) (fst q) && String.eqb (snd p) (snd q).

Record Heatmap := mk_heatmap {
  hm_index : list string;
  hm_columns : list string;
  hm_values : list (list Z)
}.

(** The [Frequency] of the row with [Skill = i] and [Job Title = c], or the
    [0] that [fillna(0)] puts in place of the missing value. The values are
    whole numbers, held by pandas as float64 once a NaN has appeared. *)
Definition heat_cell (rows : list SkillFrequencyRecord) (i c : string) : Z :=
  match find (fun r => String.eqb (Skill r) i && String.eqb (skill_Job_Title r) c) rows with
  | Some r => Frequency r
  | None => 0
  end.

(** [skillset_data.pivot(index="Skill", columns="Job Title",
    values="Frequency").fillna(0)]: pandas raises [ValueError] ("Index
    contains duplicate entries") when an (index, column) pair occurs twice,
    here [None]; otherwise one row per distinct skill, one column per distinct
    job title, both sorted. *)
Definition heatmap_data (rows : list SkillFrequencyRecord) : option Heatmap :=
  if has_dup pair_eqb (map (fun r => (Skill r, skill_Job_Title r)) rows) then None
  else
    let idx := sorted_unique (map Skill rows) in
    let cols := sorted_unique (map skill_Job_Title rows) in
    Some {| hm_index := idx; hm_columns := cols;
            hm_values := map (fun i => map (fun c => heat_cell rows i c) cols) idx |}.

(** ** binary64 values as an order

    The fitted line is computed in IEEE binary64 ([const + coef * x], one
    rounding per operation). To compare fitted values, a float [m * 2 ^ e]
    is read as the integer [m * 2 ^ (e + BIAS)]: every exponent of a finite
    binary64 value, and of an exact product of two, is at least [- BIAS]. *)
Definition BIAS : Z := 2200.

(** [N * P] is a nearest multiple of [P] to [W], the even one on a tie:
    round-to-nearest-even at the grid step [P]. *)
Definition near_even (P W N : Z) : Prop :=
  2 * Z.abs (N * P - W) <= P /\ (2 * Z.abs (N * P - W) = P -> Z.even N = true).

(** The mantissa and exponent of a canonical finite binary64 value:
    53 bits, normal (leading bit set) unless the exponent is the least. *)
Definition canon (m : positive) (e : Z) : Prop :=
  Zpos m < 2 ^ 53 /\ -1074 <= e /\ (-1074 < e -> 2 ^ 52 <= Zpos m).

(** The state [SpecFloat.shr] reaches after [n] right shifts of an
    integer [m]: the quotient, the round bit and the sticky bit. *)
Definition shr_state (m : Z) (n : nat) : SpecFloat.shr_record :=
  {| SpecFloat.shr_m := m / 2 ^ Z.of_nat n;
     SpecFloat.shr_r := Z.odd (m / 2 ^ (Z.of_nat n - 1));
     SpecFloat.shr_s := negb (m mod 2 ^ (Z.of_nat n - 1) =? 0) |}.

(** The number of binary digits of [p]. *)
Definition dg (p : positive) : Z := Zpos (SpecFloat.digits2_pos p).

(** The three outcomes of rounding the value [N * P] (with [N] the
    rounded count of grid steps [P]): zero, a canonical finite float of that
    value, or overflow to infinity. *)
Definition round_cases (r : spec_float) (N P : Z) : Prop :=
  (N = 0 /\ r = S754_zero false) \/
  (0 < N /\ N * P < 2 ^ (1024 + BIAS) /\
   exists m e, r = S754_finite false m e /\ canon m e /\ Zpos m * 2 ^ (e + BIAS) = N * P) \/
  (2 ^ (1024 + BIAS) <= N * P /\ r = S754_infinity false).

(** The extended integers, the values of floats with their infinities. *)
Inductive ereal := Ninf | Fin (v : Z) | Pinf.

Definition ereal_le (a b : ereal) : Prop :=
  match a, b with
  | Ninf, _ => True
  | _, Pinf => True
  | Fin x, Fin y => x <= y
  | _, _ => False
  end.

Definition ereal_neg (a : ereal) : ereal :=
  match a with Ninf => Pinf | Fin v => Fin (- v) | Pinf => Ninf end.

(** The value of a float, scaled by [2 ^ BIAS]; [None] for NaN. *)
Definition fkey (f : spec_float) : option ereal :=
  match f with
  | S754_zero _ => Some (Fin 0)
  | S754_infinity s => Some (if s then Ninf else Pinf)
  | S754_nan => None
  | S754_finite s m e => Some (Fin (SpecFloat.cond_Zopp s (Zpos m) * 2 ^ (e + BIAS)))
  end.

(** The order of floats by value, false when one of them is NaN. *)
Definition fkey_le (a b : spec_float) : Prop :=
  match fkey a, fkey b with
  | Some x, Some y => ereal_le x y
  | _, _ => False
  end.

(** A rounded value, or [+inf] past the overflow threshold. *)
Definition rk (V : Z) : ereal := if V <? 2 ^ (1024 + BIAS) then Fin V else Pinf.

(** [SpecFloat.binary_normalize]: round [S * 2 ^ e] to binary64, a zero
    result positive. *)
Definition bnorm (S e : Z) : spec_float :=
  SpecFloat.binary_normalize FloatOps.prec FloatOps.emax S e false.

(** ** Structural lemmas *)

Import Report.
Open Scope Z_scope.

Lemma draws_length {A : Type} (n : nat) (f : mt_state -> A * mt_state) (s : mt_state) :
  List.length (fst (draws n f s)) = n.
Proof.
  revert s; induction n as [|n IH]; intros s; simpl; [reflexivity|].
  destruct (f s) as [x s1]; simpl.
  specialize (IH s1); destruct (draws n f s1) as [xs s2]; simpl in *; lia.
Qed.

Lemma draws_Forall {A : Type} (P : A -> Prop) (n : nat) (f : mt_state -> A * mt_state)
    (s : mt_state) :
  (forall s', P (fst (f s'))) -> Forall P (fst (draws n f s)).
Proof.
  intros HP; revert s; induction n as [|n IH]; intros s; simpl; [constructor|].
  pose proof (HP s) as Hx; destruct (f s) as [x s1]; simpl in Hx.
  specialize (IH s1); destruct (draws n f s1) as [xs s2]; simpl in *.
  constructor; assumption.
Qed.

Lemma np_seed_overwrites (seed : Z) (s s' : mt_state) : np_seed seed s = np_seed seed s'.
Proof. reflexivity. Qed.

Lemma companies_data_eq log ols fmt seed s :
  companies_data (fst (main_with_seed log ols fmt seed s)) = fst (gen_companies_data seed s).
Proof.
  unfold main_with_seed.
  destruct (gen_companies_data seed s) as [cd s1]; cbn [fst snd].
  destruct (gen_skillset_data s1) as [sd s2]; cbn [fst snd].
  destruct (gen_majors_data s2) as [md s3]; cbn [fst snd].
  destruct (gen_causal_data log seed s3) as [c s4]. reflexivity.
Qed.

Lemma skillset_data_eq log ols fmt seed s :
  skillset_data (fst (main_with_seed log ols fmt seed s))
  = fst (gen_skillset_data (snd (gen_companies_data seed s))).
Proof.
  unfold main_with_seed.
  destruct (gen_companies_data seed s) as [cd s1]; cbn [fst snd].
  destruct (gen_skillset_data s1) as [sd s2]; cbn [fst snd].
  destruct (gen_majors_data s2) as [md s3]; cbn [fst snd].
  destruct (gen_causal_data log seed s3) as [c s4]. reflexivity.
Qed.

Lemma majors_data_eq log ols fmt seed s :
  majors_data (fst (main_with_seed log ols fmt seed s))
  = fst (gen_majors_data (snd (gen_skillset_data (snd (gen_companies_data seed s))))).
Proof.
  unfold main_with_seed.
  destruct (gen_companies_data seed s) as [cd s1]; cbn [fst snd].
  destruct (gen_skillset_data s1) as [sd s2]; cbn [fst snd].
  destruct (gen_majors_data s2) as [md s3]; cbn [fst snd].
  destruct (gen_causal_data log seed s3) as [c s4]. reflexivity.
Qed.

(** The regression table does not depend on the state the second
    [np.random.seed] call finds. *)
Lemma gen_causal_data_reseeded log seed (s s' : mt_state) :
  gen_causal_data log seed s = gen_causal_data log seed s'.
Proof. unfold gen_causal_data; rewrite (np_seed_overwrites seed s s'); reflexivity. Qed.

Lemma causal_data_eq log ols fmt seed s s' :
  causal_data (fst (main_with_seed log ols fmt seed s)) = fst (gen_causal_data log seed s').
Proof.
  unfold main_with_seed.
  destruct (gen_companies_data seed s) as [cd s1]; cbn [fst snd].
  destruct (gen_skillset_data s1) as [sd s2]; cbn [fst snd].
  destruct (gen_majors_data s2) as [md s3]; cbn [fst snd].
  rewrite (gen_causal_data_reseeded log seed s3 s').
  destruct (gen_causal_data log seed s') as [c s4]. reflexivity.
Qed.

Lemma model_eq log ols fmt seed s :
  let r := fst (main_with_seed log ols fmt seed s) in
  model r = fit_model ols (causal_data r) /\
  fitted r = reg_line (model r) (causal_data r) /\
  fitted_trace r = reg_line_trace (model r) (causal_data r) /\
  recommendation r = recommendations fmt (model r).
Proof.
  unfold main_with_seed.
  destruct (gen_companies_data seed s) as [cd s1]; cbn [fst snd].
  destruct (gen_skillset_data s1) as [sd s2]; cbn [fst snd].
  destruct (gen_majors_data s2) as [md s3]; cbn [fst snd].
  destruct (gen_causal_data log seed s3) as [c s4]. simpl; auto.
Qed.

(** The generated tables as pure functions of the seed. *)
Lemma main_with_seed_state_independent log ols fmt seed (s s' : mt_state) :
  fst (main_with_seed log ols fmt seed s) = fst (main_with_seed log ols fmt seed s').
Proof.
  unfold main_with_seed, gen_companies_data.
  rewrite (np_seed_overwrites seed s s'); reflexivity.
Qed.

Lemma inner_rows_length {R : Type} lo hi (mk : string -> string -> Z -> R) job vals s :
  List.length (fst (inner_rows lo hi mk job vals s)) = List.length vals.
Proof.
  revert s; induction vals as [|v vs IH]; intros s; simpl; [reflexivity|].
  destruct (randint lo hi s) as [x s1].
  specialize (IH s1); destruct (inner_rows lo hi mk job vs s1) as [rest s2].
  simpl in *; lia.
Qed.

Lemma outer_rows_length {R : Type} lo hi (mk : string -> string -> Z -> R) d s :
  List.length (fst (outer_rows lo hi mk d s))
  = list_sum (map (fun jv => List.length (snd jv)) d).
Proof.
  revert s; induction d as [|[job vals] d IH]; intros s; simpl; [reflexivity|].
  pose proof (inner_rows_length lo hi mk job vals s) as Hi.
  destruct (inner_rows lo hi mk job vals s) as [rows s1].
  specialize (IH s1); destruct (outer_rows lo hi mk d s1) as [rest s2].
  simpl in *; rewrite length_app; lia.
Qed.

Lemma inner_rows_Forall {R : Type} (P : Z -> Prop) (proj : R -> Z) lo hi
    (mk : string -> string -> Z -> R) job vals s :
  (forall j v x, proj (mk j v x) = x) ->
  (forall s', P (fst (randint lo hi s'))) ->
  Forall (fun r => P (proj r)) (fst (inner_rows lo hi mk job vals s)).
Proof.
  intros Hproj HP; revert s; induction vals as [|v vs IH]; intros s; simpl; [constructor|].
  pose proof (HP s) as Hx; destruct (randint lo hi s) as [x s1]; simpl in Hx.
  specialize (IH s1); destruct (inner_rows lo hi mk job vs s1) as [rest s2].
  simpl in *; constructor; [rewrite Hproj; exact Hx | exact IH].
Qed.

Lemma outer_rows_Forall {R : Type} (P : Z -> Prop) (proj : R -> Z) lo hi
    (mk : string -> string -> Z -> R) d s :
  (forall j v x, proj (mk j v x) = x) ->
  (forall s', P (fst (randint lo hi s'))) ->
  Forall (fun r => P (proj r)) (fst (outer_rows lo hi mk d s)).
Proof.
  intros Hproj HP; revert s; induction d as [|[job vals] d IH]; intros s; simpl; [constructor|].
  pose proof (inner_rows_Forall P proj lo hi mk job vals s Hproj HP) as Hi.
  destruct (inner_rows lo hi mk job vals s) as [rows s1].
  specialize (IH s1); destruct (outer_rows lo hi mk d s1) as [rest s2].
  simpl in *; apply Forall_app; split; assumption.
Qed.

Lemma gen_mask_nonneg (mx : Z) : 0 <= mx -> 0 <= gen_mask mx.
Proof.
  intros H; unfold gen_mask; cbv zeta.
  repeat (rewrite Z.lor_nonneg; split; [|rewrite Z.shiftr_nonneg]); assumption.
Qed.

Lemma masked_loop_bound (fuel : nat) (rng mask : Z) (s : mt_state) :
  0 <= rng -> 0 <= mask -> 0 <= fst (masked_loop fuel rng mask s) <= rng.
Proof.
  intros Hr Hm; revert s; induction fuel as [|f IH]; intros s; cbn [masked_loop fst]; [lia|].
  destruct (next_uint32 s) as [v s1].
  destruct (Z.land v mask <=? rng) eqn:E.
  - apply Z.leb_le in E; simpl; split; [apply Z.land_nonneg; right; exact Hm | exact E].
  - apply IH.
Qed.

(** [randint] stays in [[low, high)] on every nonnegative range of fewer
    than [2^32 - 1] values. *)
Lemma randint_range (lo hi : Z) (s : mt_state) :
  0 <= lo -> lo < hi -> hi - 1 - lo < MASK32 -> hi <= 2 ^ 63 ->
  lo <= fst (randint lo hi s) < hi.
Proof.
  intros H0 H1 H2 H3; unfold randint.
  assert (Hoff : lo mod 2 ^ 64 = lo) by (apply Z.mod_small; lia).
  rewrite Hoff.
  assert (Hv : 0 <= fst (if hi - 1 - lo =? 0 then (0, s)
                         else if hi - 1 - lo =? MASK32 then next_uint32 s
                         else masked_loop REJECTION_FUEL (hi - 1 - lo)
                                (gen_mask (hi - 1 - lo)) s) <= hi - 1 - lo).
  { destruct (hi - 1 - lo =? 0) eqn:E0; [simpl; lia|].
    destruct (hi - 1 - lo =? MASK32) eqn:E1; [apply Z.eqb_eq in E1; lia|].
    apply masked_loop_bound; [lia | apply gen_mask_nonneg; lia]. }
  destruct (if hi - 1 - lo =? 0 then (0, s)
            else if hi - 1 - lo =? MASK32 then next_uint32 s
            else masked_loop REJECTION_FUEL (hi - 1 - lo) (gen_mask (hi - 1 - lo)) s)
    as [val s1]; cbn [fst] in Hv |- *.
  rewrite (Z.mod_small (lo + val) (2 ^ 64)) by lia.
  destruct (lo + val <? 2 ^ 63) eqn:E; [simpl; lia|].
  apply Z.ltb_ge in E; lia.
Qed.

Lemma Forall_map_combine_r {A B C : Type} (P : C -> Prop) (Q : B -> Prop)
    (f : A * B -> C) (l1 : list A) (l2 : list B) :
  (forall a b, Q b -> P (f (a, b))) -> Forall Q l2 -> Forall P (map f (combine l1 l2)).
Proof.
  intros Hf HQ; rewrite Forall_forall in HQ |- *; intros x Hx.
  apply in_map_iff in Hx; destruct Hx as [[a b] [<- Hin]].
  apply Hf, HQ; eapply in_combine_r; exact Hin.
Qed.

Lemma gen_causal_data_shape log seed s :
  let scores := fst (draws n_obs (uniform 20 100) (np_seed seed s)) in
  let noise := fst (draws n_obs (normal log 0 15)
                      (snd (draws n_obs (uniform 20 100) (np_seed seed s)))) in
  fst (gen_causal_data log seed s)
  = map (fun xy => mk_sample (fst xy) (snd xy))
      (combine scores (map (fun xe => (50 + 3 * fst xe + snd xe)%float)
                         (combine scores noise))).
Proof.
  unfold gen_causal_data; cbv zeta.
  destruct (draws n_obs (uniform 20 100) (np_seed seed s)) as [xs s2]; cbn [fst snd].
  destruct (draws n_obs (normal log 0 15) s2) as [ns s3]; reflexivity.
Qed.

Lemma map_fst_combine_le {A B : Type} (l1 : list A) (l2 : list B) :
  (List.length l1 <= List.length l2)%nat -> map fst (combine l1 l2) = l1.
Proof.
  revert l2; induction l1 as [|a l1 IH]; intros [|b l2] H; simpl in *; try lia; auto.
  f_equal; apply IH; lia.
Qed.

Lemma causal_scores log seed s :
  map Skill_Score (fst (gen_causal_data log seed s))
  = fst (draws n_obs (uniform 20 100) (np_seed seed s)).
Proof.
  rewrite gen_causal_data_shape; cbv zeta.
  rewrite map_map; cbn [Skill_Score].
  apply map_fst_combine_le.
  rewrite length_map, length_combine, !draws_length; lia.
Qed.

Lemma causal_length log seed s :
  List.length (fst (gen_causal_data log seed s)) = n_obs.
Proof.
  rewrite gen_causal_data_shape; cbv zeta.
  rewrite length_map, length_combine, length_map, length_combine, !draws_length; lia.
Qed.

(** ** binary64 addition and multiplication are monotone *)

Lemma Zmod_mul_r_pos (a b c : Z) :
  0 < b -> 0 < c -> a mod (b * c) = a mod b + b * ((a / b) mod c).
Proof.
  intros Hb Hc.
  pose proof (Z.div_mod a b ltac:(lia)) as E1.
  pose proof (Z.div_mod (a / b) c ltac:(lia)) as E2.
  pose proof (Z.mod_pos_bound a b Hb).
  pose proof (Z.mod_pos_bound (a / b) c Hc).
  symmetry; apply (Z.mod_unique a (b * c) (a / b / c)); [left; nia | nia].
Qed.

Lemma digits2_bounds (p : positive) :
  2 ^ (Zpos (SpecFloat.digits2_pos p) - 1) <= Zpos p < 2 ^ Zpos (SpecFloat.digits2_pos p).
Proof.
  induction p as [p IH|p IH|]; cbn [SpecFloat.digits2_pos]; rewrite ?Pos2Z.inj_succ.
  - replace (Z.succ (Zpos (SpecFloat.digits2_pos p)) - 1) with (Zpos (SpecFloat.digits2_pos p)) by lia.
    rewrite Z.pow_succ_r by lia.
    assert (2 ^ Zpos (SpecFloat.digits2_pos p) = 2 * 2 ^ (Zpos (SpecFloat.digits2_pos p) - 1)).
    { rewrite <- Z.pow_succ_r by lia; f_equal; lia. }
    rewrite (Pos2Z.inj_xI p); lia.
  - replace (Z.succ (Zpos (SpecFloat.digits2_pos p)) - 1) with (Zpos (SpecFloat.digits2_pos p)) by lia.
    rewrite Z.pow_succ_r by lia.
    assert (2 ^ Zpos (SpecFloat.digits2_pos p) = 2 * 2 ^ (Zpos (SpecFloat.digits2_pos p) - 1)).
    { rewrite <- Z.pow_succ_r by lia; f_equal; lia. }
    rewrite (Pos2Z.inj_xO p); lia.
  - cbn; lia.
Qed.

Lemma pow_unique_bits (p : Z) (a b : Z) :
  1 <= a -> 1 <= b -> 2 ^ (a - 1) <= p < 2 ^ a -> 2 ^ (b - 1) <= p < 2 ^ b -> a = b.
Proof.
  intros Ha Hb [H1 H2] [H3 H4].
  destruct (Z.lt_trichotomy a b) as [Hl|[He|Hl]]; [|exact He|].
  - assert (2 ^ a <= 2 ^ (b - 1)) by (apply Z.pow_le_mono_r; lia); lia.
  - assert (2 ^ b <= 2 ^ (a - 1)) by (apply Z.pow_le_mono_r; lia); lia.
Qed.

Lemma shr_1_spec (m : Z) (r s : bool) : 0 <= m ->
  SpecFloat.shr_1 {| SpecFloat.shr_m := m; SpecFloat.shr_r := r; SpecFloat.shr_s := s |}
  = {| SpecFloat.shr_m := m / 2; SpecFloat.shr_r := Z.odd m; SpecFloat.shr_s := r || s |}.
Proof.
  intros Hm; destruct m as [|p|p]; [reflexivity| |lia].
  destruct p as [p|p|]; cbn [SpecFloat.shr_1].
  - replace (Zpos p~1 / 2) with (Zpos p); [reflexivity|].
    rewrite (Pos2Z.inj_xI p); apply (Z.div_unique _ _ _ 1); lia.
  - replace (Zpos p~0 / 2) with (Zpos p); [reflexivity|].
    rewrite (Pos2Z.inj_xO p); apply (Z.div_unique _ _ _ 0); lia.
  - reflexivity.
Qed.

Lemma iter_pos_nat {A : Type} (f : A -> A) (p : positive) (x : A) :
  SpecFloat.iter_pos f p x = Nat.iter (Pos.to_nat p) f x.
Proof.
  revert x; induction p as [p IH|p IH|]; intros x; cbn [SpecFloat.iter_pos].
  - rewrite IH, IH, Pos2Nat.inj_xI.
    rewrite <- Nat.iter_add.
    replace (S (2 * Pos.to_nat p)) with (Pos.to_nat p + Pos.to_nat p + 1)%nat by lia.
    rewrite !Nat.iter_add; reflexivity.
  - rewrite IH, IH, Pos2Nat.inj_xO, <- Nat.iter_add; f_equal; lia.
  - reflexivity.
Qed.

Lemma shr_iter_spec (m : Z) (n : nat) : 0 <= m -> (1 <= n)%nat ->
  Nat.iter n SpecFloat.shr_1
    {| SpecFloat.shr_m := m; SpecFloat.shr_r := false; SpecFloat.shr_s := false |}
  = shr_state m n.
Proof.
  intros Hm Hn; induction n as [|n IH]; [lia|].
  rewrite Nat.iter_succ.
  destruct (Nat.eq_dec n 0) as [->|Hn0].
  - change (Nat.iter 0 SpecFloat.shr_1 ?x) with x; rewrite shr_1_spec by exact Hm; unfold shr_state; cbn.
    rewrite Z.mod_1_r, Z.div_1_r; reflexivity.
  - rewrite IH by lia; unfold shr_state.
    rewrite shr_1_spec by (apply Z.div_pos; [lia | apply Z.pow_pos_nonneg; lia]).
    set (k := Z.of_nat n).
    assert (Hk : 1 <= k) by lia.
    replace (Z.of_nat (S n)) with (k + 1) by lia.
    replace (k + 1 - 1) with k by lia.
    rewrite Z.div_div by (try apply Z.pow_pos_nonneg; lia).
    replace (2 ^ k * 2) with (2 ^ (k + 1)) by (rewrite Z.pow_add_r by lia; lia).
    f_equal.
    (* sticky bit *)
      assert (E2 : 2 ^ k = 2 ^ (k - 1) * 2).
      { rewrite Z.mul_comm, <- Z.pow_succ_r by lia; f_equal; lia. }
      rewrite E2.
      rewrite Zmod_mul_r_pos by (try apply Z.pow_pos_nonneg; lia).
      pose proof (Z.mod_pos_bound m (2 ^ (k - 1)) ltac:(apply Z.pow_pos_nonneg; lia)).
      pose proof (Z.mod_pos_bound (m / 2 ^ (k - 1)) 2 ltac:(lia)).
      pose proof (Z.pow_pos_nonneg 2 (k - 1) ltac:(lia) ltac:(lia)).
      rewrite Zmod_odd.
      destruct (Z.odd (m / 2 ^ (k - 1))); cbn [orb];
      destruct (Z.eqb_spec (m mod 2 ^ (k - 1)) 0);
      destruct (Z.eqb_spec (m mod 2 ^ (k - 1) + 2 ^ (k - 1) * 1) 0);
      destruct (Z.eqb_spec (m mod 2 ^ (k - 1) + 2 ^ (k - 1) * 0) 0); cbn; try reflexivity; lia.
Qed.

Lemma shr_round (M k : Z) : 0 < M -> 1 <= k ->
  let rec := shr_state M (Z.to_nat k) in
  near_even (2 ^ k) M
    (SpecFloat.round_nearest_even (SpecFloat.shr_m rec) (SpecFloat.loc_of_shr_record rec)).
Proof.
  intros HM Hk; cbv zeta; unfold shr_state.
  rewrite Z2Nat.id by lia.
  set (h := 2 ^ (k - 1)).
  assert (Hh : 0 < h) by (apply Z.pow_pos_nonneg; lia).
  assert (E2 : 2 ^ k = h * 2).
  { unfold h; rewrite Z.mul_comm, <- Z.pow_succ_r by lia; f_equal; lia. }
  pose proof (Z.div_mod M (2 ^ k) ltac:(lia)) as Ed.
  set (q := M / 2 ^ k) in *.
  pose proof (Zmod_mul_r_pos M h 2 Hh ltac:(lia)) as Er.
  rewrite <- E2 in Er.
  pose proof (Z.mod_pos_bound M h Hh) as Bh.
  pose proof (Z.mod_pos_bound (M / h) 2 ltac:(lia)) as B2.
  rewrite Zmod_odd in Er.
  unfold near_even.
  destruct (Z.odd (M / h)) eqn:Ho; destruct (Z.eqb_spec (M mod h) 0) as [Hz|Hz];
    cbn [negb SpecFloat.loc_of_shr_record SpecFloat.shr_m SpecFloat.round_nearest_even].
  - (* tie *)
    destruct (Z.even q) eqn:Hq.
    + split; [|intros; exact Hq].
      rewrite Z.abs_neq by lia; lia.
    + split; [|intros; rewrite Z.even_add, Hq; reflexivity].
      rewrite Z.abs_eq by nia; nia.
  - split; [rewrite Z.abs_eq by nia; nia|].
    rewrite Z.abs_eq by nia; nia.
  - split; [rewrite Z.abs_eq by nia; nia|].
    rewrite Z.abs_eq by nia; nia.
  - split; [rewrite Z.abs_neq by nia; nia|].
    rewrite Z.abs_neq by nia; nia.
Qed.

Lemma fexp_eq (x : Z) : SpecFloat.fexp FloatOps.prec FloatOps.emax x = Z.max (x - 53) (-1074).
Proof. reflexivity. Qed.

Lemma near_even_scale (P W N c : Z) : 0 < c -> near_even P W N -> near_even (P * c) (W * c) N.
Proof.
  unfold near_even; intros Hc [H1 H2].
  replace (N * (P * c) - W * c) with ((N * P - W) * c) by ring.
  rewrite Z.abs_mul, (Z.abs_eq c) by lia.
  split; [nia|].
  intros H; apply H2; nia.
Qed.

Lemma near_even_exact (P N : Z) : 0 < P -> near_even P (N * P) N.
Proof.
  unfold near_even; intros HP; rewrite Z.sub_diag; cbn; split; [lia | intros; lia].
Qed.

Lemma near_even_mono (P W1 W2 N1 N2 : Z) : 0 < P -> W1 <= W2 ->
  near_even P W1 N1 -> near_even P W2 N2 -> N1 <= N2.
Proof.
  unfold near_even; intros HP HW [A1 T1] [A2 T2].
  destruct (Z.le_gt_cases N1 N2) as [|Hgt]; [assumption|exfalso].
  assert (HNP : N2 * P + P <= N1 * P) by nia.
  assert (Ha : - P <= 2 * (N1 * P - W1)) by lia.
  assert (Hb : 2 * (N2 * P - W2) <= P) by lia.
  assert (Heq1 : 2 * Z.abs (N1 * P - W1) = P) by lia.
  assert (Heq2 : 2 * Z.abs (N2 * P - W2) = P) by lia.
  assert (HN : N1 = N2 + 1) by nia.
  specialize (T1 Heq1); specialize (T2 Heq2).
  rewrite HN, Z.even_add, T2 in T1; discriminate T1.
Qed.

Lemma dg_bounds p : 2 ^ (dg p - 1) <= Zpos p < 2 ^ dg p.
Proof. apply digits2_bounds. Qed.

Lemma dg_pos p : 1 <= dg p.
Proof. unfold dg; lia. Qed.

Lemma pow_split (a b : Z) : 0 <= a -> 0 <= b -> 2 ^ (a + b) = 2 ^ a * 2 ^ b.
Proof. intros; apply Z.pow_add_r; lia. Qed.

Lemma pow_pos' (a : Z) : 0 <= a -> 0 < 2 ^ a.
Proof. intros; apply Z.pow_pos_nonneg; lia. Qed.

(** First rounding stage of [binary_round_aux] on an exact input. *)

Lemma stage1 (mz : positive) (ez : Z) :
  0 <= SpecFloat.fexp FloatOps.prec FloatOps.emax (dg mz + ez) - ez ->
  let r := SpecFloat.shr_fexp FloatOps.prec FloatOps.emax (Zpos mz) ez SpecFloat.loc_Exact in
  snd r = SpecFloat.fexp FloatOps.prec FloatOps.emax (dg mz + ez) /\
  near_even (2 ^ (SpecFloat.fexp FloatOps.prec FloatOps.emax (dg mz + ez) - ez)) (Zpos mz)
    (SpecFloat.round_nearest_even (SpecFloat.shr_m (fst r)) (SpecFloat.loc_of_shr_record (fst r))).
Proof.
  intros Hk; cbv zeta.
  unfold SpecFloat.shr_fexp, SpecFloat.shr; cbn [SpecFloat.Zdigits2 SpecFloat.shr_record_of_loc].
  fold (dg mz).
  set (k := SpecFloat.fexp FloatOps.prec FloatOps.emax (dg mz + ez) - ez) in *.
  destruct k as [|p|p] eqn:Ek; [| |lia].
  - cbn [fst snd]; split; [lia|].
    cbn; pose proof (near_even_exact 1 (Zpos mz) ltac:(lia)) as Hx; rewrite Z.mul_1_r in Hx; exact Hx.
  - cbn [fst snd]; split; [lia|].
    rewrite iter_pos_nat, shr_iter_spec by lia.
    replace (Pos.to_nat p) with (Z.to_nat (Zpos p)) by reflexivity.
    apply shr_round; lia.
Qed.

(** Second stage: renormalising the rounded mantissa. *)

Lemma stage2 (N E : Z) mrs e2 :
  0 <= N <= 2 ^ 53 -> -1074 <= E ->
  SpecFloat.shr_fexp FloatOps.prec FloatOps.emax N E SpecFloat.loc_Exact = (mrs, e2) ->
  (N = 0 -> SpecFloat.shr_m mrs = 0) /\
  (0 < N < 2 ^ 53 -> SpecFloat.shr_m mrs = N /\ e2 = E) /\
  (N = 2 ^ 53 -> SpecFloat.shr_m mrs = 2 ^ 52 /\ e2 = E + 1).
Proof.
  intros HN HE H.
  unfold SpecFloat.shr_fexp, SpecFloat.shr in H; cbn [SpecFloat.shr_record_of_loc] in H.
  rewrite fexp_eq in H.
  split; [|split].
  - intros ->; cbn [SpecFloat.Zdigits2] in H.
    replace (Z.max (0 + E - 53) (-1074) - E) with (Z.max (-53) (-1074 - E)) in H by lia.
    destruct (Z.max (-53) (-1074 - E)) eqn:Em; [| lia |]; injection H as <- <-; reflexivity.
  - intros [H0 H1].
    destruct N as [|n|n]; [lia| |lia].
    cbn [SpecFloat.Zdigits2] in H; fold (dg n) in H.
    pose proof (dg_bounds n).
    assert (dg n <= 53).
    { destruct (Z.le_gt_cases (dg n) 53); [assumption|].
      assert (2 ^ 53 <= 2 ^ (dg n - 1)) by (apply Z.pow_le_mono_r; lia); lia. }
    destruct (Z.max (dg n + E - 53) (-1074) - E) eqn:Em; [| lia |];
      injection H as <- <-; split; reflexivity.
  - intros ->.
    change (SpecFloat.Zdigits2 (2 ^ 53)) with 54 in H.
    replace (Z.max (54 + E - 53) (-1074) - E) with 1 in H by lia.
    injection H as <- <-; split; reflexivity.
Qed.

Lemma pow_le' (a b : Z) : 0 <= a -> a <= b -> 2 ^ a <= 2 ^ b.
Proof. intros; apply Z.pow_le_mono_r; lia. Qed.

Lemma pow_shift (a b : Z) : 0 <= b -> 0 <= a - b -> 2 ^ a = 2 ^ (a - b) * 2 ^ b.
Proof. intros; rewrite <- pow_split by lia; f_equal; lia. Qed.

Lemma bra_class (mz : positive) (ez : Z) :
  - BIAS <= ez ->
  0 <= SpecFloat.fexp FloatOps.prec FloatOps.emax (dg mz + ez) - ez ->
  let E := SpecFloat.fexp FloatOps.prec FloatOps.emax (dg mz + ez) in
  let r := SpecFloat.binary_round_aux FloatOps.prec FloatOps.emax false (Zpos mz) ez SpecFloat.loc_Exact in
  exists N, near_even (2 ^ (E + BIAS)) (Zpos mz * 2 ^ (ez + BIAS)) N /\
   ((N = 0 /\ r = S754_zero false) \/
    (0 < N /\ N * 2 ^ (E + BIAS) < 2 ^ (1024 + BIAS) /\
     exists m e, r = S754_finite false m e /\ canon m e /\
                 Zpos m * 2 ^ (e + BIAS) = N * 2 ^ (E + BIAS)) \/
    (2 ^ (1024 + BIAS) <= N * 2 ^ (E + BIAS) /\ r = S754_infinity false)).
Proof.
  intros Hez Hk E r.
  pose proof (stage1 mz ez Hk) as [Hs Hne]; fold E in Hs, Hne.
  unfold r, SpecFloat.binary_round_aux.
  destruct (SpecFloat.shr_fexp FloatOps.prec FloatOps.emax (Zpos mz) ez SpecFloat.loc_Exact)
    as [mrs1 e1] eqn:H1.
  cbn [fst snd] in Hs, Hne; subst e1.
  set (N := SpecFloat.round_nearest_even (SpecFloat.shr_m mrs1) (SpecFloat.loc_of_shr_record mrs1)) in *.
  assert (HE : E = Z.max (dg mz + ez - 53) (-1074)) by (unfold E; apply fexp_eq).
  unfold BIAS in *.
  set (P := 2 ^ (E + 2200)).
  set (W := Zpos mz * 2 ^ (ez + 2200)).
  assert (HP : 0 < P) by (apply pow_pos'; lia).
  assert (HPe : 2 ^ (E - ez) * 2 ^ (ez + 2200) = P).
  { unfold P; rewrite <- pow_split by lia; f_equal; lia. }
  assert (Hn : near_even P W N).
  { rewrite <- HPe; unfold W; apply near_even_scale; [apply pow_pos'; lia | exact Hne]. }
  exists N; split; [exact Hn|].
  pose proof (dg_bounds mz) as [Db1 Db2].
  pose proof (dg_pos mz).
  assert (HWu : W < 2 ^ 53 * P).
  { unfold W, P.
    assert (2 ^ dg mz * 2 ^ (ez + 2200) <= 2 ^ 53 * 2 ^ (E + 2200)).
    { rewrite <- !pow_split by lia; apply pow_le'; lia. }
    pose proof (pow_pos' (ez + 2200) ltac:(lia)).
    eapply Z.lt_le_trans; [|eassumption].
    apply Z.mul_lt_mono_pos_r; lia. }
  assert (HWl : -1074 < E -> 2 ^ 52 * P <= W).
  { intros HEl; unfold W, P.
    assert (2 ^ 52 * 2 ^ (E + 2200) = 2 ^ (dg mz - 1) * 2 ^ (ez + 2200)).
    { rewrite <- !pow_split by lia; f_equal; lia. }
    pose proof (pow_pos' (ez + 2200) ltac:(lia)).
    rewrite H0; apply Z.mul_le_mono_nonneg_r; lia. }
  assert (HW0 : 0 < W) by (unfold W; pose proof (pow_pos' (ez + 2200) ltac:(lia)); lia).
  destruct Hn as [Hn1 _].
  assert (HN0 : 0 <= N).
  { clear -Hn1 HP HW0.
    destruct (Z.le_gt_cases 0 N) as [|Hneg]; [assumption|].
    rewrite Z.abs_neq in Hn1 by nia; nia. }
  assert (HN53 : N <= 2 ^ 53).
  { clear -Hn1 HP HWu.
    destruct (Z.le_gt_cases N (2 ^ 53)) as [|Hbig]; [assumption|].
    assert (2 ^ 53 * P + P <= N * P) by nia.
    rewrite Z.abs_eq in Hn1 by lia; lia. }
  assert (HN52 : -1074 < E -> 2 ^ 52 <= N).
  { intros HEl; specialize (HWl HEl); clear -Hn1 HP HWl.
    destruct (Z.le_gt_cases (2 ^ 52) N) as [|Hsm]; [assumption|].
    assert (N * P + P <= 2 ^ 52 * P) by nia.
    rewrite Z.abs_neq in Hn1 by lia; lia. }
  assert (HEmin : -1074 <= E) by lia.
  destruct (SpecFloat.shr_fexp FloatOps.prec FloatOps.emax N E SpecFloat.loc_Exact)
    as [mrs2 e2] eqn:H2.
  pose proof (stage2 N E mrs2 e2 (conj HN0 HN53) HEmin H2) as [S0 [S1 S2]].
  assert (Hlim : 2 ^ (1024 + 2200) = 2 ^ 53 * 2 ^ (971 + 2200)).
  { rewrite <- pow_split by lia; reflexivity. }
  destruct (Z.eq_dec N 0) as [HN|HN].
  - left; split; [exact HN|]; rewrite (S0 HN); reflexivity.
  - right.
    destruct (Z.eq_dec N (2 ^ 53)) as [Ht|Ht].
    + destruct (S2 Ht) as [-> ->].
      change (Z.sub FloatOps.emax FloatOps.prec) with 971.
      destruct (Z.leb_spec (E + 1) 971) as [Hf|Hf].
      * left; split; [lia|]; split.
        -- rewrite Ht; unfold P.
           assert (2 ^ (E + 2200) <= 2 ^ (970 + 2200)) by (apply pow_le'; lia).
           assert (2 ^ (971 + 2200) = 2 ^ 1 * 2 ^ (970 + 2200)).
           { rewrite <- !pow_split by lia; reflexivity. }
           assert (0 < 2 ^ (970 + 2200)) by (apply pow_pos'; lia).
           change (2 ^ 1) with 2 in *. nia.
        -- exists (2 ^ 52)%positive, (E + 1); split; [reflexivity|]; split.
           ++ unfold canon; split; [reflexivity|]; split; [lia|]; intros; lia.
           ++ rewrite Ht; unfold P.
              change (Zpos (2 ^ 52)) with (2 ^ 52).
              rewrite <- !pow_split by lia; f_equal; lia.
      * right; split; [|reflexivity].
        rewrite Ht; unfold P.
        rewrite <- pow_split by lia; apply pow_le'; lia.
    + destruct S1 as [Hm ->]; [lia|].
      destruct N as [|n|n]; [lia| |lia].
      rewrite Hm.
      change (Z.sub FloatOps.emax FloatOps.prec) with 971.
      destruct (Z.leb_spec E 971) as [Hf|Hf].
      * left; split; [lia|]; split.
        -- unfold P.
           assert (2 ^ (E + 2200) <= 2 ^ (971 + 2200)) by (apply pow_le'; lia).
           rewrite Hlim.
           apply Z.le_lt_trans with (Zpos n * 2 ^ (971 + 2200));
             [apply Z.mul_le_mono_nonneg_l; lia
             | apply Z.mul_lt_mono_pos_r; [apply pow_pos'; lia | lia]].
        -- exists n, E; split; [reflexivity|]; split; [|reflexivity].
           unfold canon; split; [lia|]; split; [lia|]; intros; apply HN52; lia.
      * right; split; [|reflexivity].
        unfold P.
        assert (Hq1 : 2 ^ (972 + 2200) <= 2 ^ (E + 2200)) by (apply pow_le'; lia).
        assert (Hq2 : 2 ^ (1024 + 2200) = 2 ^ 52 * 2 ^ (972 + 2200)).
        { rewrite <- pow_split by lia; reflexivity. }
        specialize (HN52 ltac:(lia)).
        rewrite Hq2; apply Z.mul_le_mono_nonneg; try lia.
Qed.

Lemma iter_xO_val (m d : positive) : Zpos (Pos.iter xO m d) = Zpos m * 2 ^ Zpos d.
Proof.
  induction d as [|d IH] using Pos.peano_ind.
  - cbn; lia.
  - rewrite Pos.iter_succ, Pos2Z.inj_succ, Z.pow_succ_r by lia.
    change (Zpos (xO (Pos.iter xO m d))) with (2 * Zpos (Pos.iter xO m d)).
    rewrite IH; ring.
Qed.

Lemma shl_align_noop (m : positive) (e e' : Z) : e <= e' -> SpecFloat.shl_align m e e' = (m, e).
Proof.
  intros H; unfold SpecFloat.shl_align.
  destruct (e' - e) eqn:E; [reflexivity | reflexivity | lia].
Qed.

Lemma shl_align_shift (m : positive) (e e' : Z) : e' < e ->
  Zpos (fst (SpecFloat.shl_align m e e')) = Zpos m * 2 ^ (e - e') /\
  snd (SpecFloat.shl_align m e e') = e'.
Proof.
  intros H; unfold SpecFloat.shl_align.
  destruct (e' - e) as [|d|d] eqn:E; [lia | lia|].
  cbn [fst snd]; split; [|reflexivity].
  rewrite iter_xO_val; f_equal; f_equal; lia.
Qed.

Lemma dg_shift (m : positive) (k : Z) (m' : positive) :
  0 <= k -> Zpos m' = Zpos m * 2 ^ k -> dg m' = dg m + k.
Proof.
  intros Hk Hm.
  pose proof (dg_bounds m) as [B1 B2]; pose proof (dg_bounds m') as [B3 B4].
  pose proof (dg_pos m); pose proof (dg_pos m').
  apply (pow_unique_bits (Zpos m')); try lia; split.
  - rewrite Hm, (pow_shift (dg m + k - 1) k) by lia.
    replace (dg m + k - 1 - k) with (dg m - 1) by lia.
    apply Z.mul_le_mono_nonneg_r; [apply Z.lt_le_incl, pow_pos'; lia | lia].
  - rewrite Hm, (pow_shift (dg m + k) k) by lia.
    replace (dg m + k - k) with (dg m) by lia.
    apply Z.mul_lt_mono_pos_r; [apply pow_pos'; lia | lia].
Qed.

Lemma br_class (mx : positive) (e : Z) : - BIAS <= e ->
  let E := SpecFloat.fexp FloatOps.prec FloatOps.emax (dg mx + e) in
  exists N, near_even (2 ^ (E + BIAS)) (Zpos mx * 2 ^ (e + BIAS)) N /\
    round_cases (SpecFloat.binary_round FloatOps.prec FloatOps.emax false mx e) N (2 ^ (E + BIAS)).
Proof.
  intros He E; unfold SpecFloat.binary_round; fold (dg mx); fold E.
  assert (HE : E = Z.max (dg mx + e - 53) (-1074)) by (unfold E; apply fexp_eq).
  destruct (Z.le_gt_cases e E) as [Hle|Hgt].
  - rewrite shl_align_noop by exact Hle.
    apply bra_class; [exact He | fold E; lia].
  - destruct (shl_align_shift mx e E Hgt) as [Hm Hs].
    destruct (SpecFloat.shl_align mx e E) as [mz ez]; cbn [fst snd] in Hm, Hs; subst ez.
    assert (Hd : dg mz = dg mx + (e - E)) by (apply dg_shift; lia).
    assert (HE' : SpecFloat.fexp FloatOps.prec FloatOps.emax (dg mz + E) = E).
    { rewrite Hd; replace (dg mx + (e - E) + E) with (dg mx + e) by lia; reflexivity. }
    assert (Hv : Zpos mz * 2 ^ (E + BIAS) = Zpos mx * 2 ^ (e + BIAS)).
    { rewrite Hm, <- Z.mul_assoc, <- pow_split by (unfold BIAS in *; lia); f_equal; f_equal; lia. }
    pose proof (bra_class mz E ltac:(unfold BIAS in *; lia) ltac:(rewrite HE'; lia)) as Hc.
    cbv zeta in Hc; rewrite HE', Hv in Hc; exact Hc.
Qed.

Lemma V_mono (W1 W2 M1 M2 N1 N2 : Z) :
  1 - BIAS <= M1 -> 1 - BIAS <= M2 ->
  2 ^ (M1 - 1 + BIAS) <= W1 < 2 ^ (M1 + BIAS) ->
  2 ^ (M2 - 1 + BIAS) <= W2 < 2 ^ (M2 + BIAS) ->
  W1 <= W2 ->
  near_even (2 ^ (SpecFloat.fexp FloatOps.prec FloatOps.emax M1 + BIAS)) W1 N1 ->
  near_even (2 ^ (SpecFloat.fexp FloatOps.prec FloatOps.emax M2 + BIAS)) W2 N2 ->
  N1 * 2 ^ (SpecFloat.fexp FloatOps.prec FloatOps.emax M1 + BIAS)
  <= N2 * 2 ^ (SpecFloat.fexp FloatOps.prec FloatOps.emax M2 + BIAS).
Proof.
  rewrite !fexp_eq; unfold BIAS.
  intros HM1 HM2 [A1 A2] [B1 B2] HW H1 H2.
  set (E1 := Z.max (M1 - 53) (-1074)) in *.
  set (E2 := Z.max (M2 - 53) (-1074)) in *.
  assert (HM : M1 <= M2).
  { destruct (Z.le_gt_cases M1 M2) as [|Hg]; [assumption|].
    assert (2 ^ (M2 + 2200) <= 2 ^ (M1 - 1 + 2200)) by (apply pow_le'; lia); lia. }
  assert (HE : E1 <= E2) by lia.
  destruct (Z.eq_dec E1 E2) as [Heq|Hne].
  - rewrite <- Heq in H2 |- *.
    apply Z.mul_le_mono_nonneg_r; [apply Z.lt_le_incl, pow_pos'; lia|].
    apply (near_even_mono (2 ^ (E1 + 2200)) W1 W2); [apply pow_pos'; lia | exact HW | exact H1 | exact H2].
  - assert (HE2 : E2 = M2 - 53) by lia.
    assert (HM' : M1 < M2) by lia.
    set (T := 2 ^ (M2 - 1 + 2200)).
    assert (HT1 : T = 2 ^ (M2 - 1 - E1) * 2 ^ (E1 + 2200)).
    { unfold T; rewrite <- pow_split by lia; f_equal; lia. }
    assert (HT2 : T = 2 ^ 52 * 2 ^ (E2 + 2200)).
    { unfold T; rewrite <- pow_split by lia; f_equal; lia. }
    assert (HW1T : W1 <= T) by (assert (2 ^ (M1 + 2200) <= T) by (apply pow_le'; lia); lia).
    assert (Hn1 : N1 <= 2 ^ (M2 - 1 - E1)).
    { apply (near_even_mono (2 ^ (E1 + 2200)) W1 T); [apply pow_pos'; lia | exact HW1T | exact H1|].
      rewrite HT1; apply near_even_exact, pow_pos'; lia. }
    assert (Hn2 : 2 ^ 52 <= N2).
    { apply (near_even_mono (2 ^ (E2 + 2200)) T W2); [apply pow_pos'; lia | exact B1 | | exact H2].
      rewrite HT2; apply near_even_exact, pow_pos'; lia. }
    apply Z.le_trans with T.
    + rewrite HT1; apply Z.mul_le_mono_nonneg_r; [apply Z.lt_le_incl, pow_pos'; lia | exact Hn1].
    + rewrite HT2; apply Z.mul_le_mono_nonneg_r; [apply Z.lt_le_incl, pow_pos'; lia | exact Hn2].
Qed.

Lemma mag_bounds (m : positive) (e : Z) : - BIAS <= e ->
  2 ^ (dg m + e - 1 + BIAS) <= Zpos m * 2 ^ (e + BIAS) < 2 ^ (dg m + e + BIAS).
Proof.
  intros He; pose proof (dg_bounds m) as [B1 B2]; pose proof (dg_pos m); unfold BIAS in *.
  pose proof (pow_pos' (e + 2200) ltac:(lia)).
  split.
  - replace (dg m + e - 1 + 2200) with ((dg m - 1) + (e + 2200)) by lia.
    rewrite (pow_split (dg m - 1) (e + 2200)) by lia; apply Z.mul_le_mono_nonneg_r; lia.
  - replace (dg m + e + 2200) with (dg m + (e + 2200)) by lia.
    rewrite (pow_split (dg m) (e + 2200)) by lia; apply Z.mul_lt_mono_pos_r; lia.
Qed.

Lemma rk_mono (V1 V2 : Z) : V1 <= V2 -> ereal_le (rk V1) (rk V2).
Proof.
  unfold rk; intros H.
  destruct (Z.ltb_spec V1 (2 ^ (1024 + BIAS))), (Z.ltb_spec V2 (2 ^ (1024 + BIAS))); cbn; lia.
Qed.

Lemma rk_nonneg (V : Z) : 0 <= V -> ereal_le (Fin 0) (rk V).
Proof. unfold rk; intros H; destruct (V <? _); cbn; lia. Qed.

Lemma round_cases_key (r : spec_float) (N P : Z) : 0 < P -> round_cases r N P ->
  fkey r = Some (rk (N * P)) /\ 0 <= N * P.
Proof.
  intros HP [[-> ->]|[[H0 [H1 [m [e [-> [_ Hv]]]]]]|[H2 ->]]]; unfold rk.
  - split; [|lia]; cbn; destruct (Z.ltb_spec 0 (2 ^ (1024 + BIAS))); [reflexivity|].
    exfalso; assert (0 < 2 ^ (1024 + BIAS)) by (apply pow_pos'; unfold BIAS; lia); lia.
  - split; [|nia]; cbn [fkey SpecFloat.cond_Zopp]; rewrite Hv.
    destruct (Z.ltb_spec (N * P) (2 ^ (1024 + BIAS))); [reflexivity | lia].
  - split; [|assert (0 < 2 ^ (1024 + BIAS)) by (apply pow_pos'; unfold BIAS; lia); lia].
    destruct (Z.ltb_spec (N * P) (2 ^ (1024 + BIAS))); [lia | reflexivity].
Qed.

Lemma br_key (m : positive) (e : Z) : - BIAS <= e ->
  exists N, let E := SpecFloat.fexp FloatOps.prec FloatOps.emax (dg m + e) in
    near_even (2 ^ (E + BIAS)) (Zpos m * 2 ^ (e + BIAS)) N /\
    fkey (SpecFloat.binary_round FloatOps.prec FloatOps.emax false m e) = Some (rk (N * 2 ^ (E + BIAS))) /\
    0 <= N * 2 ^ (E + BIAS).
Proof.
  intros He; destruct (br_class m e He) as [N [Hn Hc]].
  exists N; cbv zeta; split; [exact Hn|].
  apply round_cases_key; [apply pow_pos'; rewrite fexp_eq; unfold BIAS; lia | exact Hc].
Qed.

Lemma br_key_mono (m1 m2 : positive) (e1 e2 : Z) : - BIAS <= e1 -> - BIAS <= e2 ->
  Zpos m1 * 2 ^ (e1 + BIAS) <= Zpos m2 * 2 ^ (e2 + BIAS) ->
  fkey_le (SpecFloat.binary_round FloatOps.prec FloatOps.emax false m1 e1)
         (SpecFloat.binary_round FloatOps.prec FloatOps.emax false m2 e2).
Proof.
  intros H1 H2 HW.
  destruct (br_key m1 e1 H1) as [N1 [Hn1 [Hk1 _]]].
  destruct (br_key m2 e2 H2) as [N2 [Hn2 [Hk2 _]]].
  unfold fkey_le; rewrite Hk1, Hk2; apply rk_mono.
  pose proof (dg_pos m1); pose proof (dg_pos m2).
  pose proof (mag_bounds m1 e1 H1); pose proof (mag_bounds m2 e2 H2).
  apply (V_mono (Zpos m1 * 2 ^ (e1 + BIAS)) (Zpos m2 * 2 ^ (e2 + BIAS)) (dg m1 + e1) (dg m2 + e2));
    try assumption; unfold BIAS in *; try lia.
Qed.

Lemma br_key_nonneg (m : positive) (e : Z) : - BIAS <= e ->
  exists x, fkey (SpecFloat.binary_round FloatOps.prec FloatOps.emax false m e) = Some x /\
            ereal_le (Fin 0) x.
Proof.
  intros He; destruct (br_key m e He) as [N [_ [Hk Hp]]].
  eexists; split; [exact Hk | apply rk_nonneg; exact Hp].
Qed.

Lemma br_opp (m : positive) (e : Z) :
  SpecFloat.binary_round FloatOps.prec FloatOps.emax true m e
  = SpecFloat.SFopp (SpecFloat.binary_round FloatOps.prec FloatOps.emax false m e).
Proof.
  unfold SpecFloat.binary_round.
  destruct (SpecFloat.shl_align m e _) as [mz ez].
  unfold SpecFloat.binary_round_aux.
  destruct (SpecFloat.shr_fexp _ _ (Zpos mz) ez _) as [r1 e1].
  destruct (SpecFloat.shr_fexp _ _ _ e1 _) as [r2 e2].
  destruct (SpecFloat.shr_m r2); [reflexivity| |reflexivity].
  destruct (e2 <=? _); reflexivity.
Qed.

Lemma fkey_opp (f : spec_float) : fkey (SpecFloat.SFopp f) = option_map ereal_neg (fkey f).
Proof.
  destruct f as [s|s| |s m e];
    cbn [fkey SpecFloat.SFopp SpecFloat.cond_Zopp negb option_map ereal_neg]; try reflexivity.
  - destruct s; reflexivity.
  - destruct s; cbn [negb SpecFloat.cond_Zopp]; do 2 f_equal; ring.
Qed.

Lemma ereal_le_neg (a b : ereal) : ereal_le (ereal_neg a) (ereal_neg b) <-> ereal_le b a.
Proof. destruct a, b; cbn; try tauto; lia. Qed.

Lemma key_le_opp (a b : spec_float) :
  fkey_le (SpecFloat.SFopp a) (SpecFloat.SFopp b) <-> fkey_le b a.
Proof.
  unfold fkey_le; rewrite !fkey_opp.
  destruct (fkey a), (fkey b); cbn; try tauto; apply ereal_le_neg.
Qed.

Lemma bn_key_mono (S1 S2 e1 e2 : Z) : - BIAS <= e1 -> - BIAS <= e2 ->
  S1 * 2 ^ (e1 + BIAS) <= S2 * 2 ^ (e2 + BIAS) -> fkey_le (bnorm S1 e1) (bnorm S2 e2).
Proof.
  intros H1 H2 HW.
  assert (P1 : 0 < 2 ^ (e1 + BIAS)) by (apply pow_pos'; lia).
  assert (P2 : 0 < 2 ^ (e2 + BIAS)) by (apply pow_pos'; lia).
  unfold bnorm, SpecFloat.binary_normalize.
  destruct S1 as [|p1|p1], S2 as [|p2|p2].
  - cbn; lia.
  - destruct (br_key_nonneg p2 e2 H2) as [x [Hx Hle]].
    unfold fkey_le; rewrite Hx; exact Hle.
  - exfalso; nia.
  - exfalso; nia.
  - apply br_key_mono; assumption.
  - exfalso; nia.
  - rewrite br_opp; destruct (br_key_nonneg p1 e1 H1) as [x [Hx Hle]].
    unfold fkey_le; rewrite fkey_opp, Hx; cbn.
    destruct x; cbn in *; lia.
  - rewrite br_opp; destruct (br_key_nonneg p1 e1 H1) as [x [Hx Hle]].
    destruct (br_key_nonneg p2 e2 H2) as [y [Hy Hle']].
    unfold fkey_le; rewrite fkey_opp, Hx, Hy; cbn.
    destruct x, y; cbn in *; try tauto; lia.
  - rewrite !br_opp; apply key_le_opp; apply br_key_mono; try assumption.
    nia.
Qed.

Lemma valid_canon (s : bool) (m : positive) (e : Z) :
  SpecFloat.valid_binary FloatOps.prec FloatOps.emax (S754_finite s m e) = true ->
  canon m e /\ e <= 971 /\ SpecFloat.fexp FloatOps.prec FloatOps.emax (dg m + e) = e.
Proof.
  unfold SpecFloat.valid_binary, SpecFloat.bounded, SpecFloat.canonical_mantissa.
  rewrite andb_true_iff, Z.eqb_eq, Z.leb_le; fold (dg m).
  change (Z.sub FloatOps.emax FloatOps.prec) with 971.
  intros [Hc He]; split; [|split; [exact He | exact Hc]].
  rewrite fexp_eq in Hc.
  pose proof (dg_bounds m) as [B1 B2]; pose proof (dg_pos m).
  unfold canon; split; [|split; [lia|]].
  - assert (2 ^ dg m <= 2 ^ 53) by (apply pow_le'; lia); lia.
  - intros Hl; replace (dg m) with 53 in B1 by lia; exact B1.
Qed.

Lemma canon_val_pos (m : positive) (e : Z) : canon m e -> 0 < Zpos m * 2 ^ (e + BIAS).
Proof.
  unfold canon, BIAS; intros [_ [He _]].
  pose proof (pow_pos' (e + 2200) ltac:(lia)); lia.
Qed.

Lemma cmp_pos (m1 m2 : positive) (e1 e2 : Z) : canon m1 e1 -> canon m2 e2 ->
  SpecFloat.SFleb (S754_finite false m1 e1) (S754_finite false m2 e2) = true <->
  Zpos m1 * 2 ^ (e1 + BIAS) <= Zpos m2 * 2 ^ (e2 + BIAS).
Proof.
  intros C1 C2; pose proof C1 as [A1 [B1 D1]]; pose proof C2 as [A2 [B2 D2]].
  unfold BIAS in *.
  assert (Hlt : forall ma ea mb eb, canon ma ea -> canon mb eb -> ea < eb ->
            Zpos ma * 2 ^ (ea + 2200) < Zpos mb * 2 ^ (eb + 2200)).
  { intros ma ea mb eb [Ca [Ea _]] [_ [Eb Fb]] Hab.
    assert (Hq : 2 ^ 53 * 2 ^ (ea + 2200) <= 2 ^ 52 * 2 ^ (eb + 2200)).
    { rewrite <- !pow_split by lia; apply pow_le'; lia. }
    pose proof (pow_pos' (ea + 2200) ltac:(lia)).
    pose proof (pow_pos' (eb + 2200) ltac:(lia)).
    specialize (Fb ltac:(lia)).
    apply Z.lt_le_trans with (2 ^ 53 * 2 ^ (ea + 2200)); [apply Z.mul_lt_mono_pos_r; lia|].
    apply Z.le_trans with (2 ^ 52 * 2 ^ (eb + 2200)); [exact Hq|].
    apply Z.mul_le_mono_nonneg_r; lia. }
  unfold SpecFloat.SFleb, SpecFloat.SFcompare.
  destruct (Z.compare_spec e1 e2) as [->|H|H].
  - change (Pos.compare_cont Eq m1 m2) with (Pos.compare m1 m2).
    pose proof (pow_pos' (e2 + 2200) ltac:(lia)).
    destruct (Pos.compare_spec m1 m2) as [->|Hm|Hm]; split; intros; try lia; try discriminate.
    + apply Z.mul_le_mono_nonneg_r; lia.
    + assert (Zpos m2 * 2 ^ (e2 + 2200) < Zpos m1 * 2 ^ (e2 + 2200))
        by (apply Z.mul_lt_mono_pos_r; lia); lia.
  - split; [intros _|reflexivity]; apply Z.lt_le_incl, Hlt; assumption.
  - split; [discriminate|]; intros Hle; pose proof (Hlt m2 e2 m1 e1 C2 C1 H); lia.
Qed.

Lemma cmp_neg (m1 m2 : positive) (e1 e2 : Z) :
  SpecFloat.SFleb (S754_finite true m1 e1) (S754_finite true m2 e2)
  = SpecFloat.SFleb (S754_finite false m2 e2) (S754_finite false m1 e1).
Proof.
  unfold SpecFloat.SFleb, SpecFloat.SFcompare.
  rewrite (Z.compare_antisym e1 e2).
  change (Pos.compare_cont Eq m2 m1) with (Pos.compare m2 m1).
  change (Pos.compare_cont Eq m1 m2) with (Pos.compare m1 m2).
  rewrite (Pos.compare_antisym m1 m2).
  destruct (Z.compare e1 e2), (Pos.compare m1 m2); reflexivity.
Qed.

Lemma leb_key (a b : spec_float) :
  SpecFloat.valid_binary FloatOps.prec FloatOps.emax a = true ->
  SpecFloat.valid_binary FloatOps.prec FloatOps.emax b = true ->
  SpecFloat.SFleb a b = true <-> fkey_le a b.
Proof.
  intros Va Vb; unfold fkey_le.
  destruct a as [sa|sa| |sa ma ea], b as [sb|sb| |sb mb eb];
    try (destruct sa); try (destruct sb); cbn [fkey SpecFloat.cond_Zopp ereal_le];
    try (cbn; split; intros; first [reflexivity | lia | discriminate | tauto]).
  all: try (pose proof (canon_val_pos ma ea (proj1 (valid_canon _ _ _ Va)))).
  all: try (pose proof (canon_val_pos mb eb (proj1 (valid_canon _ _ _ Vb)))).
  all: try (cbn [SpecFloat.SFleb SpecFloat.SFcompare]; split; intros; first [reflexivity | lia | discriminate]).
  - rewrite cmp_neg, cmp_pos by (first [exact (proj1 (valid_canon _ _ _ Va)) | exact (proj1 (valid_canon _ _ _ Vb))]).
    lia.
  - rewrite cmp_pos by (first [exact (proj1 (valid_canon _ _ _ Va)) | exact (proj1 (valid_canon _ _ _ Vb))]).
    reflexivity.
Qed.

Lemma leb_key_float (x y : float) : (x <=? y)%float = true <-> fkey_le (Prim2SF x) (Prim2SF y).
Proof. rewrite FloatAxioms.leb_spec; apply leb_key; apply FloatAxioms.Prim2SF_valid. Qed.

Lemma bn_some (S e : Z) : - BIAS <= e -> exists x, fkey (bnorm S e) = Some x.
Proof.
  intros He; pose proof (bn_key_mono S S e e He He (Z.le_refl _)) as H.
  unfold fkey_le in H; destruct (fkey (bnorm S e)); [eauto | contradiction].
Qed.

Lemma bn_id (s : bool) (m : positive) (e : Z) :
  SpecFloat.valid_binary FloatOps.prec FloatOps.emax (S754_finite s m e) = true ->
  bnorm (SpecFloat.cond_Zopp s (Zpos m)) e = S754_finite s m e.
Proof.
  intros V; destruct (valid_canon _ _ _ V) as [_ [He Hf]].
  assert (E : bnorm (SpecFloat.cond_Zopp s (Zpos m)) e
              = SpecFloat.binary_round FloatOps.prec FloatOps.emax s m e) by (destruct s; reflexivity).
  rewrite E; unfold SpecFloat.binary_round; fold (dg m); rewrite Hf, shl_align_noop by lia.
  unfold SpecFloat.binary_round_aux, SpecFloat.shr_fexp.
  change (SpecFloat.Zdigits2 (Zpos m)) with (dg m); rewrite Hf, Z.sub_diag.
  cbn [SpecFloat.shr SpecFloat.shr_record_of_loc SpecFloat.shr_m SpecFloat.loc_of_shr_record
       SpecFloat.round_nearest_even].
  change (SpecFloat.Zdigits2 (Zpos m)) with (dg m); rewrite Hf, Z.sub_diag.
  cbn [SpecFloat.shr SpecFloat.shr_record_of_loc SpecFloat.shr_m].
  change (Z.sub FloatOps.emax FloatOps.prec) with 971.
  replace (e <=? 971) with true by (symmetry; apply Z.leb_le; exact He).
  reflexivity.
Qed.

Lemma mul_k (mm mx : positive) (em ex : Z) : canon mm em -> canon mx ex ->
  em + ex <= SpecFloat.fexp FloatOps.prec FloatOps.emax (dg (mm * mx) + (em + ex)).
Proof.
  intros [A1 [B1 D1]] [A2 [B2 D2]]; rewrite fexp_eq.
  pose proof (dg_bounds mm) as [L1 U1]; pose proof (dg_bounds mx) as [L2 U2].
  pose proof (dg_bounds (mm * mx)) as [L U]; pose proof (dg_pos mm); pose proof (dg_pos mx).
  rewrite Pos2Z.inj_mul in L, U.
  assert (Hd : dg mm + dg mx - 1 <= dg (mm * mx)).
  { destruct (Z_le_gt_dec (dg mm + dg mx - 1) (dg (mm * mx))) as [?|Hg]; [assumption|exfalso].
    assert (P : 2 ^ (dg mm - 1) * 2 ^ (dg mx - 1) <= Zpos mm * Zpos mx)
      by (apply Z.mul_le_mono_nonneg; try lia; apply Z.lt_le_incl, pow_pos'; lia).
    rewrite <- pow_split in P by lia.
    assert (2 ^ dg (mm * mx) <= 2 ^ (dg mm - 1 + (dg mx - 1))) by
      (apply pow_le'; [pose proof (dg_pos (mm * mx)); lia | lia]).
    lia. }
  destruct (Z_le_gt_dec 54 (dg mm + dg mx)) as [Hb|Hb]; [lia|].
  assert (Q1 : 2 ^ dg mm <= 2 ^ 52) by (apply pow_le'; lia).
  assert (Q2 : 2 ^ dg mx <= 2 ^ 52) by (apply pow_le'; lia).
  assert (em = -1074) by (destruct (Z.eq_dec em (-1074)); [assumption|]; specialize (D1 ltac:(lia)); lia).
  assert (ex = -1074) by (destruct (Z.eq_dec ex (-1074)); [assumption|]; specialize (D2 ltac:(lia)); lia).
  lia.
Qed.

Lemma fkey_Ninf (X : spec_float) : fkey X = Some Ninf -> X = S754_infinity true.
Proof. destruct X as [s|s| |s m e]; cbn; try destruct s; congruence. Qed.

Lemma fkey_Pinf (X : spec_float) : fkey X = Some Pinf -> X = S754_infinity false.
Proof. destruct X as [s|s| |s m e]; cbn; try destruct s; congruence. Qed.

Lemma mul_fin (mm : positive) (em : Z) (X : spec_float) (v : Z) : canon mm em ->
  SpecFloat.valid_binary FloatOps.prec FloatOps.emax X = true -> fkey X = Some (Fin v) ->
  exists S e, - BIAS <= e /\ S * 2 ^ (e + BIAS) * 2 ^ BIAS = Zpos mm * 2 ^ (em + BIAS) * v /\
    fkey (SpecFloat.SFmul FloatOps.prec FloatOps.emax (S754_finite false mm em) X) = fkey (bnorm S e).
Proof.
  intros Cm V K; destruct X as [s|s| |s mx ex]; cbn in K; [| destruct s; discriminate | discriminate |].
  - injection K as <-; exists 0, 0; cbn; split; [unfold BIAS; lia | split; [ring | reflexivity]].
  - destruct (valid_canon _ _ _ V) as [Cx _]; pose proof Cm as [_ [Bm _]]; pose proof Cx as [_ [Bx _]].
    injection K as <-.
    exists (SpecFloat.cond_Zopp s (Zpos (mm * mx))), (em + ex); split; [unfold BIAS; lia|split].
    + assert (P : 2 ^ (em + ex + BIAS) * 2 ^ BIAS = 2 ^ (em + BIAS) * 2 ^ (ex + BIAS)).
      { rewrite <- !pow_split by (unfold BIAS; lia); f_equal; ring. }
      rewrite <- Z.mul_assoc, P, Pos2Z.inj_mul; destruct s; cbn [SpecFloat.cond_Zopp]; ring.
    + f_equal; unfold bnorm, SpecFloat.SFmul.
      assert (Hk := mul_k mm mx em ex Cm Cx).
      destruct s; cbn [xorb SpecFloat.cond_Zopp Z.opp SpecFloat.binary_normalize];
        unfold SpecFloat.binary_round; fold (dg (mm * mx)); rewrite shl_align_noop by exact Hk;
        reflexivity.
Qed.

Lemma mul_inf (mm : positive) (em : Z) (s : bool) :
  SpecFloat.SFmul FloatOps.prec FloatOps.emax (S754_finite false mm em) (S754_infinity s) = S754_infinity s.
Proof. reflexivity. Qed.

Lemma mul_some (mm : positive) (em : Z) (X : spec_float) : canon mm em ->
  SpecFloat.valid_binary FloatOps.prec FloatOps.emax X = true -> fkey X <> None ->
  exists x, fkey (SpecFloat.SFmul FloatOps.prec FloatOps.emax (S754_finite false mm em) X) = Some x.
Proof.
  intros Cm V K; destruct (fkey X) as [[|v|]|] eqn:E; [| | |contradiction].
  - rewrite (fkey_Ninf X E), mul_inf; eexists; reflexivity.
  - destruct (mul_fin mm em X v Cm V E) as [S [e [He [_ Hk]]]]; rewrite Hk; exact (bn_some S e He).
  - rewrite (fkey_Pinf X E), mul_inf; eexists; reflexivity.
Qed.

Lemma mul_mono (mm : positive) (em : Z) (X1 X2 : spec_float) : canon mm em ->
  SpecFloat.valid_binary FloatOps.prec FloatOps.emax X1 = true ->
  SpecFloat.valid_binary FloatOps.prec FloatOps.emax X2 = true ->
  fkey_le X1 X2 ->
  fkey_le (SpecFloat.SFmul FloatOps.prec FloatOps.emax (S754_finite false mm em) X1)
         (SpecFloat.SFmul FloatOps.prec FloatOps.emax (S754_finite false mm em) X2).
Proof.
  intros Cm V1 V2 Hle; unfold fkey_le in Hle.
  destruct (fkey X1) as [a|] eqn:K1; [|contradiction].
  destruct (fkey X2) as [b|] eqn:K2; [|contradiction].
  destruct (mul_some mm em X1 Cm V1 ltac:(congruence)) as [y1 Y1].
  destruct (mul_some mm em X2 Cm V2 ltac:(congruence)) as [y2 Y2].
  destruct a as [|v1|], b as [|v2|]; cbn in Hle; try contradiction.
  - rewrite (fkey_Ninf X1 K1), mul_inf; unfold fkey_le; rewrite Y2; exact I.
  - rewrite (fkey_Ninf X1 K1), mul_inf; unfold fkey_le; rewrite Y2; exact I.
  - rewrite (fkey_Ninf X1 K1), mul_inf; unfold fkey_le; rewrite Y2; exact I.
  - destruct (mul_fin mm em X1 v1 Cm V1 K1) as [S1 [e1 [He1 [Q1 Hk1]]]].
    destruct (mul_fin mm em X2 v2 Cm V2 K2) as [S2 [e2 [He2 [Q2 Hk2]]]].
    unfold fkey_le; rewrite Hk1, Hk2; fold (fkey_le (bnorm S1 e1) (bnorm S2 e2)).
    apply bn_key_mono; [exact He1 | exact He2 |].
    pose proof (canon_val_pos mm em Cm) as Pm.
    assert (PB : 0 < 2 ^ BIAS) by (apply pow_pos'; unfold BIAS; lia).
    apply (Z.mul_le_mono_pos_r _ _ (2 ^ BIAS) PB); rewrite Q1, Q2.
    apply Z.mul_le_mono_nonneg_l; lia.
  - rewrite (fkey_Pinf X2 K2), mul_inf; unfold fkey_le; rewrite Y1; destruct y1; exact I.
  - rewrite (fkey_Pinf X2 K2), mul_inf; unfold fkey_le; rewrite Y1; destruct y1; exact I.
Qed.

Lemma shl_val (m : positive) (e ez : Z) : ez <= e -> - BIAS <= ez ->
  Zpos (fst (SpecFloat.shl_align m e ez)) * 2 ^ (ez + BIAS) = Zpos m * 2 ^ (e + BIAS).
Proof.
  intros H1 H2; destruct (Z.eq_dec ez e) as [->|Hn].
  - rewrite shl_align_noop by lia; reflexivity.
  - destruct (shl_align_shift m e ez ltac:(lia)) as [-> _].
    rewrite <- Z.mul_assoc, <- pow_split by (unfold BIAS in *; lia); do 2 f_equal; ring.
Qed.

Lemma cond_Zopp_mul (s : bool) (a b : Z) : SpecFloat.cond_Zopp s a * b = SpecFloat.cond_Zopp s (a * b).
Proof. destruct s; cbn; ring. Qed.

Lemma add_fin (C X : spec_float) (vc v : Z) :
  SpecFloat.valid_binary FloatOps.prec FloatOps.emax C = true ->
  SpecFloat.valid_binary FloatOps.prec FloatOps.emax X = true ->
  fkey C = Some (Fin vc) -> fkey X = Some (Fin v) ->
  exists S e, - BIAS <= e /\ S * 2 ^ (e + BIAS) = vc + v /\
    fkey (SpecFloat.SFadd FloatOps.prec FloatOps.emax C X) = fkey (bnorm S e).
Proof.
  intros VC VX KC KX.
  destruct C as [sc|sc| |sc mc ec]; cbn in KC; [| destruct sc; discriminate | discriminate |];
  (destruct X as [sx|sx| |sx mx ex]; cbn in KX; [| destruct sx; discriminate | discriminate |]);
  injection KC as <-; injection KX as <-.
  - exists 0, 0; split; [unfold BIAS; lia | split; [ring|]].
    destruct sc, sx; reflexivity.
  - exists (SpecFloat.cond_Zopp sx (Zpos mx)), ex.
    destruct (valid_canon _ _ _ VX) as [[_ [B _]] _].
    split; [unfold BIAS; lia | split; [ring |]].
    rewrite (bn_id sx mx ex VX); reflexivity.
  - exists (SpecFloat.cond_Zopp sc (Zpos mc)), ec.
    destruct (valid_canon _ _ _ VC) as [[_ [B _]] _].
    split; [unfold BIAS; lia | split; [ring |]].
    rewrite (bn_id sc mc ec VC); reflexivity.
  - destruct (valid_canon _ _ _ VC) as [[_ [Bc _]] _].
    destruct (valid_canon _ _ _ VX) as [[_ [Bx _]] _].
    eexists; exists (Z.min ec ex); split; [unfold BIAS; lia | split; [| reflexivity]].
    rewrite Z.mul_add_distr_r, !cond_Zopp_mul, !shl_val by (unfold BIAS; lia).
    reflexivity.
Qed.

Lemma add_inf (C : spec_float) (s : bool) (vc : Z) : fkey C = Some (Fin vc) ->
  SpecFloat.SFadd FloatOps.prec FloatOps.emax C (S754_infinity s) = S754_infinity s.
Proof. destruct C as [sc|sc| |sc mc ec]; cbn; try (destruct sc); congruence. Qed.

Lemma add_some (C X : spec_float) (vc : Z) :
  SpecFloat.valid_binary FloatOps.prec FloatOps.emax C = true ->
  SpecFloat.valid_binary FloatOps.prec FloatOps.emax X = true ->
  fkey C = Some (Fin vc) -> fkey X <> None ->
  exists x, fkey (SpecFloat.SFadd FloatOps.prec FloatOps.emax C X) = Some x.
Proof.
  intros VC VX KC K; destruct (fkey X) as [[|v|]|] eqn:E; [| | |contradiction].
  - rewrite (fkey_Ninf X E), (add_inf C true vc KC); eexists; reflexivity.
  - destruct (add_fin C X vc v VC VX KC E) as [S [e [He [_ Hk]]]]; rewrite Hk; exact (bn_some S e He).
  - rewrite (fkey_Pinf X E), (add_inf C false vc KC); eexists; reflexivity.
Qed.

Lemma add_mono (C X1 X2 : spec_float) (vc : Z) :
  SpecFloat.valid_binary FloatOps.prec FloatOps.emax C = true ->
  SpecFloat.valid_binary FloatOps.prec FloatOps.emax X1 = true ->
  SpecFloat.valid_binary FloatOps.prec FloatOps.emax X2 = true ->
  fkey C = Some (Fin vc) -> fkey_le X1 X2 ->
  fkey_le (SpecFloat.SFadd FloatOps.prec FloatOps.emax C X1)
         (SpecFloat.SFadd FloatOps.prec FloatOps.emax C X2).
Proof.
  intros VC V1 V2 KC Hle; unfold fkey_le in Hle.
  destruct (fkey X1) as [a|] eqn:K1; [|contradiction].
  destruct (fkey X2) as [b|] eqn:K2; [|contradiction].
  destruct (add_some C X1 vc VC V1 KC ltac:(congruence)) as [y1 Y1].
  destruct (add_some C X2 vc VC V2 KC ltac:(congruence)) as [y2 Y2].
  destruct a as [|v1|], b as [|v2|]; cbn in Hle; try contradiction.
  all: try (rewrite (fkey_Ninf X1 K1), (add_inf C true vc KC); unfold fkey_le; rewrite Y2; exact I).
  all: try (rewrite (fkey_Pinf X2 K2), (add_inf C false vc KC); unfold fkey_le; rewrite Y1; destruct y1; exact I).
  destruct (add_fin C X1 vc v1 VC V1 KC K1) as [S1 [e1 [He1 [Q1 Hk1]]]].
  destruct (add_fin C X2 vc v2 VC V2 KC K2) as [S2 [e2 [He2 [Q2 Hk2]]]].
  unfold fkey_le; rewrite Hk1, Hk2; fold (fkey_le (bnorm S1 e1) (bnorm S2 e2)).
  apply bn_key_mono; [exact He1 | exact He2 | lia].
Qed.

Lemma is_finite_key (x : float) : is_finite x = true -> exists v, fkey (Prim2SF x) = Some (Fin v).
Proof.
  unfold is_finite, is_nan, is_infinity; rewrite !FloatAxioms.eqb_spec, FloatAxioms.abs_spec.
  replace (Prim2SF infinity) with (S754_infinity false) by (vm_compute; reflexivity).
  destruct (Prim2SF x) as [s|s| |s m e]; cbn; try (destruct s); try discriminate; eexists; reflexivity.
Qed.

Lemma pos_canon (m : float) : is_finite m = true -> (0 <? m)%float = true ->
  exists mm em, Prim2SF m = S754_finite false mm em /\ canon mm em.
Proof.
  intros Hf Hp; rewrite FloatAxioms.ltb_spec in Hp.
  replace (Prim2SF 0%float) with (S754_zero false) in Hp by (vm_compute; reflexivity).
  pose proof (FloatAxioms.Prim2SF_valid m) as V.
  destruct (is_finite_key m Hf) as [v Kv].
  destruct (Prim2SF m) as [s|s| |s mm em]; cbn in Kv, Hp; try (destruct s); try discriminate.
  exists mm, em; split; [reflexivity | exact (proj1 (valid_canon _ _ _ V))].
Qed.

Lemma affine_leb_mono (c m x1 x2 : float) :
  is_finite c = true -> is_finite m = true -> (0 <? m)%float = true ->
  (x1 <=? x2)%float = true -> (c + m * x1 <=? c + m * x2)%float = true.
Proof.
  intros Hc Hm Hp Hx.
  rewrite leb_key_float in *.
  destruct (is_finite_key c Hc) as [vc Kc].
  destruct (pos_canon m Hm Hp) as [mm [em [Em Cm]]].
  pose proof (FloatAxioms.Prim2SF_valid (m * x1)) as V1; pose proof (FloatAxioms.Prim2SF_valid (m * x2)) as V2.
  rewrite !FloatAxioms.add_spec; unfold SF64add.
  apply (add_mono _ _ _ vc (FloatAxioms.Prim2SF_valid c) V1 V2 Kc).
  rewrite !FloatAxioms.mul_spec; unfold SF64mul; rewrite Em.
  apply mul_mono; [exact Cm | apply FloatAxioms.Prim2SF_valid | apply FloatAxioms.Prim2SF_valid | exact Hx].
Qed.

(** ** Claims *)

(** C1: for every valid seed, two runs of the generator with that seed
    produce the same four tables (employer headcounts, skill frequencies,
    major counts, regression samples), whatever global random state each run
    starts from: the tables are a function of the seed. *)
Theorem tables_deterministic log ols fmt (seed : Z) (s s' : mt_state) :
  valid_seed seed ->
  tables (fst (main_with_seed log ols fmt seed s))
  = tables (fst (main_with_seed log ols fmt seed s')).
Proof.
  intros _; rewrite (main_with_seed_state_independent log ols fmt seed s s'); reflexivity.
Qed.

Lemma tables_deterministic_witness :
  valid_seed 42 /\
  tables (fst (main_with_seed (fun _ => 0%float) (fun _ _ => mk_model 0 0 0)
                 (fun _ _ => EmptyString%string) 42
                 {| key := []; pos := O; has_gauss := false; gauss := 0%float |}))
  = tables (fst (main_with_seed (fun _ => 0%float) (fun _ _ => mk_model 0 0 0)
                 (fun _ _ => EmptyString%string) 42
                 {| key := [1; 2; 3]; pos := 7%nat; has_gauss := true; gauss := 1%float |})).
Proof.
  split.
  - unfold valid_seed, MASK32; lia.
  - apply tables_deterministic; unfold valid_seed, MASK32; lia.
Defined.

(** C2: every generated record lies in its half-open range: employer
    [Graduates] in [[50,200)], skill [Frequency] in [[40,150)], major [Count]
    in [[20,100)], for every seed and starting state. *)
Theorem generated_ranges log ols fmt (seed : Z) (s : mt_state) :
  let r := fst (main_with_seed log ols fmt seed s) in
  Forall (fun e => 50 <= emp_Graduates e < 200) (companies_data r) /\
  Forall (fun x => 40 <= Frequency x < 150) (skillset_data r) /\
  Forall (fun m => 20 <= Count m < 100) (majors_data r).
Proof.
  cbv zeta; split; [|split].
  - rewrite companies_data_eq; unfold gen_companies_data; cbv zeta.
    pose proof (draws_Forall (fun g => 50 <= g < 200) (List.length companies)
                  (randint 50 200) (np_seed seed s)) as H.
    destruct (draws (List.length companies) (randint 50 200) (np_seed seed s)) as [gs s2].
    cbn [fst] in *.
    apply (Forall_map_combine_r _ (fun g => 50 <= g < 200)); [intros a b Hb; exact Hb|].
    apply H; intros s'; apply randint_range; unfold MASK32; lia.
  - rewrite skillset_data_eq; unfold gen_skillset_data.
    apply (outer_rows_Forall (fun x => 40 <= x < 150) Frequency); [reflexivity|].
    intros s'; apply randint_range; unfold MASK32; lia.
  - rewrite majors_data_eq; unfold gen_majors_data.
    apply (outer_rows_Forall (fun x => 20 <= x < 100) Count); [reflexivity|].
    intros s'; apply randint_range; unfold MASK32; lia.
Qed.

(** C3: a run with seed 42 yields 10 employer records, 25 skill-frequency
    records (5+5+5+5+5), 16 major-count records (3+4+3+3+3) and 50
    regression samples. *)
Theorem report_row_counts log ols fmt (s : mt_state) :
  let r := fst (main log ols fmt s) in
  List.length (companies_data r) = 10%nat /\
  List.length (skillset_data r) = 25%nat /\
  List.length (majors_data r) = 16%nat /\
  List.length (causal_data r) = 50%nat.
Proof.
  cbv zeta; unfold main; split; [|split; [|split]].
  - rewrite companies_data_eq; unfold gen_companies_data; cbv zeta.
    pose proof (draws_length (List.length companies) (randint 50 200) (np_seed SEED s)) as Hl.
    destruct (draws (List.length companies) (randint 50 200) (np_seed SEED s)) as [gs s2].
    cbn [fst] in *; rewrite length_map, length_combine, Hl; reflexivity.
  - rewrite skillset_data_eq; unfold gen_skillset_data; rewrite outer_rows_length; reflexivity.
  - rewrite majors_data_eq; unfold gen_majors_data; rewrite outer_rows_length; reflexivity.
  - rewrite (causal_data_eq _ _ _ _ _ s), causal_length; reflexivity.
Qed.

(** C5: the fitted-value sequence has one entry per regression sample (50),
    in sample order, each equal to [intercept + slope * SkillScore] for the
    intercept and slope of the model fitted to that table. *)
Theorem fitted_values_aligned log ols fmt (s : mt_state) :
  let r := fst (main log ols fmt s) in
  model r = fit_model ols (causal_data r) /\
  List.length (fitted r) = List.length (causal_data r) /\
  List.length (fitted r) = 50%nat /\
  fitted r = map (fun smp => (const (model r) + coef (model r) * Skill_Score smp)%float)
               (causal_data r).
Proof.
  cbv zeta; unfold main.
  destruct (model_eq log ols fmt SEED s) as [Hm [Hf _]].
  rewrite Hf; unfold reg_line; rewrite map_map.
  split; [exact Hm|].
  rewrite length_map, (causal_data_eq _ _ _ _ _ s), causal_length.
  split; [reflexivity | split; reflexivity].
Qed.




(** C10: the generator is reseeded before the regression samples are drawn:
    the regression table is the one generated from the seeded state whatever
    state the employer, skill and major tables left behind, and both the
    employer headcounts and the skill scores are drawn from the same stream
    position, the freshly seeded state. *)
Theorem regression_reseeded log ols fmt (s s' : mt_state) :
  let r := fst (main log ols fmt s) in
  causal_data r = fst (gen_causal_data log SEED s') /\
  map emp_Graduates (companies_data r)
  = fst (draws (List.length companies) (randint 50 200) (np_seed SEED s')) /\
  map Skill_Score (causal_data r) = fst (draws n_obs (uniform 20 100) (np_seed SEED s')).
Proof.
  cbv zeta; unfold main.
  rewrite (causal_data_eq _ _ _ _ s s').
  split; [reflexivity|split; [|apply causal_scores]].
  rewrite companies_data_eq; unfold gen_companies_data; cbv zeta.
  rewrite (np_seed_overwrites SEED s s').
  pose proof (draws_length (List.length companies) (randint 50 200) (np_seed SEED s')) as Hl.
  destruct (draws (List.length companies) (randint 50 200) (np_seed SEED s')) as [gs s2].
  cbn [fst] in *.
  rewrite map_map; cbn [emp_Graduates].
  revert Hl; generalize companies; clear; intros l; revert gs.
  induction l as [|c l IH]; intros [|g gs] H; simpl in *; try discriminate; auto.
  f_equal; apply IH; lia.
Qed.

Lemma combine_map_combine {A B C D : Type} (mk : A -> C -> D) (g : A * B -> C)
    (l : list A) (m : list B) :
  map (fun xy => mk (fst xy) (snd xy)) (combine l (map g (combine l m)))
  = map (fun xe => mk (fst xe) (g xe)) (combine l m).
Proof.
  revert m; induction l as [|a l IH]; intros [|b m]; simpl; auto.
  f_equal; apply IH.
Qed.

Lemma reg_line_length m cd : List.length (reg_line m cd) = List.length cd.
Proof. unfold reg_line; rewrite !length_map; reflexivity. Qed.

Lemma fitted_trace_shape m cd :
  reg_line_trace m cd
  = map (fun smp => (Skill_Score smp, (const m + coef m * Skill_Score smp)%float)) cd.
Proof.
  unfold reg_line_trace, reg_line.
  induction cd as [|smp cd IH]; simpl; [reflexivity|].
  f_equal; exact IH.
Qed.

Lemma contains_here (t s : string) : contains (String.append t s) t.
Proof. exists EmptyString, s; reflexivity. Qed.

Lemma contains_cons (c : ascii) (s t : string) : contains s t -> contains (String c s) t.
Proof. intros [pre [post ->]]; exists (String c pre), post; reflexivity. Qed.

Lemma append_assoc_str (a b c : string) :
  String.append a (String.append b c) = String.append (String.append a b) c.
Proof. induction a as [|x a IH]; simpl; [reflexivity | rewrite IH; reflexivity]. Qed.

Lemma contains_skip (u s t : string) : contains s t -> contains (String.append u s) t.
Proof.
  intros [pre [post ->]]; exists (String.append u pre), post.
  rewrite append_assoc_str; reflexivity.
Qed.

Ltac find_substring :=
  repeat first [ apply contains_here | apply contains_cons | apply contains_skip ].

Lemma recommendations_contain fmt m :
  exists txt, recommendations fmt m = Some txt /\
    contains txt (fmt 2%nat (coef m)) /\ contains txt (fmt 3%nat (pval m)).
Proof.
  unfold recommendations, py_format, recommendations_template; simpl.
  eexists; split; [reflexivity|].
  split; find_substring.
Qed.

(** Seed 42's 50 skill scores, as [np.random.uniform(20, 100, size=50)]
    draws them, all lie in [[20, 100)]. *)
Lemma seed42_scores_in_range (s : mt_state) :
  forallb (fun x => (20 <=? x)%float && (x <? 100)%float)
    (fst (draws n_obs (uniform 20 100) (np_seed SEED s))) = true.
Proof.
  rewrite (np_seed_overwrites SEED s {| key := []; pos := O; has_gauss := false; gauss := 0%float |}).
  vm_compute; reflexivity.
Qed.

(** Seed 42's skill scores are not in ascending order (the first three are
    49.96..., 96.05..., 78.55...). *)
Lemma seed42_scores_unsorted (s : mt_state) :
  sorted_floats (fst (draws n_obs (uniform 20 100) (np_seed SEED s))) = false.
Proof.
  rewrite (np_seed_overwrites SEED s {| key := []; pos := O; has_gauss := false; gauss := 0%float |}).
  vm_compute; reflexivity.
Qed.

(** C4: the 50 regression samples pair the scores drawn by
    [np.random.uniform(20, 100, size=50)] from the seeded state (all of them
    in [[20,100)] for seed 42) with [50 + 3 * score + noise], the noise being
    the next 50 draws of [np.random.normal(0, 15)], i.e. [0 + 15 * g] for the
    legacy Gaussian draws [g]. *)
Theorem regression_samples_formula log ols fmt (s : mt_state) :
  let r := fst (main log ols fmt s) in
  let st := np_seed SEED s in
  let scores := fst (draws n_obs (uniform 20 100) st) in
  let noise := fst (draws n_obs (normal log 0 15) (snd (draws n_obs (uniform 20 100) st))) in
  List.length (causal_data r) = 50%nat /\
  List.length scores = 50%nat /\
  List.length noise = 50%nat /\
  forallb (fun x => (20 <=? x)%float && (x <? 100)%float) scores = true /\
  causal_data r
  = map (fun xe => mk_sample (fst xe) (50 + 3 * fst xe + snd xe)%float) (combine scores noise).
Proof.
  cbv zeta; unfold main.
  rewrite (causal_data_eq _ _ _ _ s s), causal_length, !draws_length.
  split; [reflexivity | split; [reflexivity | split; [reflexivity | split]]].
  - apply seed42_scores_in_range.
  - rewrite gen_causal_data_shape; cbv zeta.
    apply (combine_map_combine mk_sample (fun xe => (50 + 3 * fst xe + snd xe)%float)).
Qed.

(** C6, as the code has it: the fitted line reaches the chart as the
    [(SkillScore, intercept + slope * SkillScore)] pairs in sample order, the
    order the scores were drawn in; for seed 42 they are not sorted by x. *)
Theorem fitted_trace_sample_order log ols fmt (s : mt_state) :
  let r := fst (main log ols fmt s) in
  fitted_trace r
  = map (fun smp => (Skill_Score smp, (const (model r) + coef (model r) * Skill_Score smp)%float))
      (causal_data r) /\
  map fst (fitted_trace r) = fst (draws n_obs (uniform 20 100) (np_seed SEED s)) /\
  sorted_by_x (fitted_trace r) = false.
Proof.
  cbv zeta; unfold main.
  destruct (model_eq log ols fmt SEED s) as [_ [_ [Ht _]]].
  rewrite Ht, fitted_trace_shape.
  assert (Hx : map fst (map (fun smp => (Skill_Score smp,
                   (const (model (fst (main_with_seed log ols fmt SEED s)))
                    + coef (model (fst (main_with_seed log ols fmt SEED s))) * Skill_Score smp)%float))
                 (causal_data (fst (main_with_seed log ols fmt SEED s))))
               = fst (draws n_obs (uniform 20 100) (np_seed SEED s))).
  { rewrite map_map; cbn [fst].
    rewrite (causal_data_eq _ _ _ _ s s); apply causal_scores. }
  split; [reflexivity | split; [exact Hx|]].
  unfold sorted_by_x; rewrite Hx; apply seed42_scores_unsorted.
Qed.

(** C6 as stated fails: the fitted line handed to the chart is not sorted by
    x ascending. *)
Lemma fitted_trace_sorted_counterexample :
  ~ (forall log ols fmt (s : mt_state), sorted_by_x (fitted_trace (fst (main log ols fmt s))) = true).
Proof.
  intros H.
  pose proof (H (fun _ => 0%float) (fun _ _ => mk_model 0 0 0) (fun _ _ => EmptyString)
                {| key := []; pos := O; has_gauss := false; gauss := 0%float |}) as Hs.
  vm_compute in Hs; discriminate Hs.
Qed.

(** C7: the recommendation text contains the fitted slope formatted with
    [.2f] and the slope p-value formatted with [.3f], both taken from the
    fitted model ([params["Skill_Score"]], [pvalues["Skill_Score"]]). *)
Theorem recommendation_formats log ols fmt (s : mt_state) :
  let r := fst (main log ols fmt s) in
  exists txt, recommendation r = Some txt /\
    contains txt (fmt 2%nat (coef (model r))) /\
    contains txt (fmt 3%nat (pval (model r))).
Proof.
  cbv zeta; unfold main.
  destruct (model_eq log ols fmt SEED s) as [_ [_ [_ Hr]]].
  rewrite Hr; apply recommendations_contain.
Qed.

(** ** The MT19937 state invariant *)

Lemma word32_shiftr_iff (x : Z) : word32 x <-> 0 <= x /\ Z.shiftr x 32 = 0.
Proof.
  unfold word32; rewrite Z.shiftr_div_pow2 by lia; split.
  - intros H; split; [lia | apply Z.div_small; lia].
  - intros [H1 H2]; apply Z.div_small_iff in H2; lia.
Qed.

Lemma word32_lxor (a b : Z) : word32 a -> word32 b -> word32 (Z.lxor a b).
Proof.
  rewrite !word32_shiftr_iff; intros [Ha Ha'] [Hb Hb']; split.
  - apply Z.lxor_nonneg; tauto.
  - rewrite Z.shiftr_lxor, Ha', Hb'; reflexivity.
Qed.

Lemma word32_lor (a b : Z) : word32 a -> word32 b -> word32 (Z.lor a b).
Proof.
  rewrite !word32_shiftr_iff; intros [Ha Ha'] [Hb Hb']; split.
  - apply Z.lor_nonneg; tauto.
  - rewrite Z.shiftr_lor, Ha', Hb'; reflexivity.
Qed.

Lemma word32_land_r (a b : Z) : word32 b -> word32 (Z.land a b).
Proof.
  rewrite !word32_shiftr_iff; intros [Hb Hb']; split.
  - apply Z.land_nonneg; tauto.
  - rewrite Z.shiftr_land, Hb', Z.land_0_r; reflexivity.
Qed.

Lemma word32_shiftr (a n : Z) : word32 a -> 0 <= n -> word32 (Z.shiftr a n).
Proof.
  rewrite !word32_shiftr_iff; intros [Ha Ha'] Hn; split.
  - apply Z.shiftr_nonneg; exact Ha.
  - rewrite Z.shiftr_shiftr by lia; rewrite Z.add_comm, <- Z.shiftr_shiftr by lia.
    rewrite Ha'; apply Z.shiftr_0_l.
Qed.

Lemma word32_const (c : Z) : 0 <= c < 2 ^ 32 -> word32 c.
Proof. exact (fun H => H). Qed.

Ltac word32_auto :=
  repeat first
    [ apply word32_lxor | apply word32_lor | apply word32_land_r
    | apply word32_shiftr; [|lia]
    | assumption
    | solve [unfold word32, MATRIX_A, UPPER_MASK, LOWER_MASK, MASK32; lia] ].

Lemma temper_word32 (y : Z) : word32 y -> word32 (temper y).
Proof. intros H; unfold temper; cbv zeta; word32_auto. Qed.

Lemma nth_word32 (i : nat) (l : list Z) : Forall word32 l -> word32 (nth i l 0).
Proof.
  intros H; destruct (Nat.lt_ge_cases i (List.length l)) as [Hi|Hi].
  - rewrite Forall_forall in H; apply H, nth_In, Hi.
  - rewrite nth_overflow by exact Hi; apply word32_const; lia.
Qed.

Lemma replace_nth_length (i : nat) (l : list Z) (v : Z) :
  List.length (replace_nth i l v) = List.length l.
Proof.
  revert i; induction l as [|h t IH]; intros [|i]; simpl; auto.
Qed.

Lemma replace_nth_Forall (P : Z -> Prop) (i : nat) (l : list Z) (v : Z) :
  Forall P l -> P v -> Forall P (replace_nth i l v).
Proof.
  revert i; induction l as [|h t IH]; intros [|i] Hl Hv; simpl; auto;
    inversion Hl; subst; constructor; auto.
Qed.

Lemma gen_step_keys (k : list Z) (i : nat) :
  Forall word32 k ->
  List.length (gen_step k i) = List.length k /\ Forall word32 (gen_step k i).
Proof.
  intros Hk; unfold gen_step; cbv zeta; split.
  - apply replace_nth_length.
  - apply replace_nth_Forall; [exact Hk|].
    pose proof (nth_word32 i k Hk).
    pose proof (nth_word32 (Nat.modulo (i + 1) RK_STATE_LEN) k Hk).
    pose proof (nth_word32 (Nat.modulo (i + MT_M) RK_STATE_LEN) k Hk).
    destruct (Z.odd _); word32_auto.
Qed.

Lemma mt19937_gen_keys (k : list Z) :
  Forall word32 k ->
  List.length (mt19937_gen k) = List.length k /\ Forall word32 (mt19937_gen k).
Proof.
  unfold mt19937_gen; generalize 0%nat; generalize RK_STATE_LEN.
  intros n; revert k; induction n as [|n IH]; intros k i Hk; simpl; [auto|].
  destruct (gen_step_keys k i Hk) as [Hl Hf].
  destruct (IH (gen_step k i) (S i) Hf) as [Hl' Hf']; split; [lia | exact Hf'].
Qed.

Lemma next_uint32_wf (s : mt_state) :
  mt_wf s -> word32 (fst (next_uint32 s)) /\ mt_wf (snd (next_uint32 s)).
Proof.
  intros [Hl [Hf Hp]]; unfold next_uint32, mt_wf; cbn [fst snd key pos].
  destruct (Nat.eqb (pos s) RK_STATE_LEN) eqn:E.
  - destruct (mt19937_gen_keys (key s) Hf) as [Hl' Hf'].
    split; [apply temper_word32, nth_word32, Hf'|].
    split; [lia | split; [exact Hf' | unfold RK_STATE_LEN; lia]].
  - apply Nat.eqb_neq in E.
    split; [apply temper_word32, nth_word32, Hf|].
    split; [exact Hl | split; [exact Hf | lia]].
Qed.

Lemma seed_key_shape (n : nat) (p x : Z) :
  word32 x -> List.length (seed_key n p x) = n /\ Forall word32 (seed_key n p x).
Proof.
  revert p x; induction n as [|n IH]; intros p x Hx; cbn [seed_key List.length];
    [split; [reflexivity | constructor]|].
  destruct (IH (p + 1) (Z.land (1812433253 * Z.lxor x (Z.shiftr x 30) + p + 1) MASK32))
    as [Hl Hf]; [word32_auto|].
  split; [rewrite Hl; reflexivity | constructor; assumption].
Qed.

Lemma np_seed_wf (seed : Z) (s : mt_state) : mt_wf (np_seed seed s).
Proof.
  unfold np_seed, mt_wf; cbn [key pos].
  destruct (seed_key_shape RK_STATE_LEN 0 (Z.land seed MASK32)) as [Hl Hf]; [word32_auto|].
  split; [exact Hl | split; [exact Hf | lia]].
Qed.

Lemma masked_loop_wf (fuel : nat) (rng mask : Z) (s : mt_state) :
  mt_wf s -> mt_wf (snd (masked_loop fuel rng mask s)).
Proof.
  revert s; induction fuel as [|f IH]; intros s H; cbn [masked_loop]; [exact H|].
  destruct (next_uint32_wf s H) as [_ H1].
  destruct (next_uint32 s) as [v s1]; cbn [snd] in H1.
  destruct (Z.land v mask <=? rng); [exact H1 | apply IH, H1].
Qed.

Lemma randint_wf (low high : Z) (s : mt_state) : mt_wf s -> mt_wf (snd (randint low high s)).
Proof.
  intros H; unfold randint; cbv zeta.
  destruct (high - 1 - low =? 0); [exact H|].
  destruct (high - 1 - low =? MASK32).
  - destruct (next_uint32_wf s H) as [_ H1]; destruct (next_uint32 s) as [v s1]; exact H1.
  - pose proof (masked_loop_wf REJECTION_FUEL (high - 1 - low) (gen_mask (high - 1 - low)) s H)
      as H1.
    destruct (masked_loop REJECTION_FUEL (high - 1 - low) (gen_mask (high - 1 - low)) s)
      as [v s1]; exact H1.
Qed.

Lemma next_double_wf (s : mt_state) : mt_wf s -> mt_wf (snd (next_double s)).
Proof.
  intros H; unfold next_double.
  destruct (next_uint32_wf s H) as [_ H1]; destruct (next_uint32 s) as [x s1]; cbn [snd] in H1.
  destruct (next_uint32_wf s1 H1) as [_ H2]; destruct (next_uint32 s1) as [y s2]; exact H2.
Qed.

Lemma uniform_wf (low high : float) (s : mt_state) : mt_wf s -> mt_wf (snd (uniform low high s)).
Proof.
  intros H; unfold uniform; cbv zeta.
  pose proof (next_double_wf s H) as H1; destruct (next_double s) as [d s1]; exact H1.
Qed.

Lemma polar_loop_wf (fuel : nat) (s : mt_state) : mt_wf s -> mt_wf (snd (polar_loop fuel s)).
Proof.
  revert s; induction fuel as [|f IH]; intros s H; cbn [polar_loop];
    pose proof (next_double_wf s H) as H1; destruct (next_double s) as [d1 s1];
    cbn [snd] in H1;
    pose proof (next_double_wf s1 H1) as H2; destruct (next_double s1) as [d2 s2];
    cbn [snd] in H2; cbv zeta; [exact H2|].
  destruct (_ || _); [apply IH, H2 | exact H2].
Qed.

Lemma legacy_gauss_wf log (s : mt_state) : mt_wf s -> mt_wf (snd (legacy_gauss log s)).
Proof.
  intros H; unfold legacy_gauss.
  destruct (has_gauss s); [destruct H as [? [? ?]]; split; [|split]; assumption|].
  pose proof (polar_loop_wf REJECTION_FUEL s H) as H1.
  destruct (polar_loop REJECTION_FUEL s) as [[[x1 x2] r2] s1]; cbn [snd] in H1.
  destruct H1 as [? [? ?]]; split; [|split]; assumption.
Qed.

Lemma normal_wf log (loc scale : float) (s : mt_state) :
  mt_wf s -> mt_wf (snd (normal log loc scale s)).
Proof.
  intros H; unfold normal.
  pose proof (legacy_gauss_wf log s H) as H1; destruct (legacy_gauss log s) as [g s1]; exact H1.
Qed.

Lemma draws_wf {A : Type} (n : nat) (f : mt_state -> A * mt_state) (s : mt_state) :
  (forall s', mt_wf s' -> mt_wf (snd (f s'))) -> mt_wf s -> mt_wf (snd (draws n f s)).
Proof.
  intros Hf; revert s; induction n as [|n IH]; intros s H; simpl; [exact H|].
  pose proof (Hf s H) as H1; destruct (f s) as [x s1]; cbn [snd] in H1.
  pose proof (IH s1 H1) as H2; destruct (draws n f s1) as [xs s2]; exact H2.
Qed.

Lemma inner_rows_wf {R : Type} lo hi (mk : string -> string -> Z -> R) job vals s :
  mt_wf s -> mt_wf (snd (inner_rows lo hi mk job vals s)).
Proof.
  revert s; induction vals as [|v vs IH]; intros s H; simpl; [exact H|].
  pose proof (randint_wf lo hi s H) as H1; destruct (randint lo hi s) as [x s1]; cbn [snd] in H1.
  pose proof (IH s1 H1) as H2; destruct (inner_rows lo hi mk job vs s1) as [rest s2]; exact H2.
Qed.

Lemma outer_rows_wf {R : Type} lo hi (mk : string -> string -> Z -> R) d s :
  mt_wf s -> mt_wf (snd (outer_rows lo hi mk d s)).
Proof.
  revert s; induction d as [|[job vals] d IH]; intros s H; simpl; [exact H|].
  pose proof (inner_rows_wf lo hi mk job vals s H) as H1.
  destruct (inner_rows lo hi mk job vals s) as [rows s1]; cbn [snd] in H1.
  pose proof (IH s1 H1) as H2; destruct (outer_rows lo hi mk d s1) as [rest s2]; exact H2.
Qed.

Lemma gen_causal_data_wf log (seed : Z) (s : mt_state) : mt_wf (snd (gen_causal_data log seed s)).
Proof.
  unfold gen_causal_data; cbv zeta.
  pose proof (draws_wf n_obs (uniform 20 100) (np_seed seed s) (uniform_wf 20 100)
                (np_seed_wf seed s)) as H1.
  destruct (draws n_obs (uniform 20 100) (np_seed seed s)) as [xs s2]; cbn [snd] in H1.
  pose proof (draws_wf n_obs (normal log 0 15) s2 (normal_wf log 0 15) H1) as H2.
  destruct (draws n_obs (normal log 0 15) s2) as [ns s3]; exact H2.
Qed.

Lemma gen_companies_data_wf (seed : Z) (s : mt_state) : mt_wf (snd (gen_companies_data seed s)).
Proof.
  unfold gen_companies_data; cbv zeta.
  pose proof (draws_wf (List.length companies) (randint 50 200) (np_seed seed s)
                (randint_wf 50 200) (np_seed_wf seed s)) as H1.
  destruct (draws (List.length companies) (randint 50 200) (np_seed seed s)) as [gs s2].
  exact H1.
Qed.

Lemma main_final_state log ols fmt seed s :
  snd (main_with_seed log ols fmt seed s)
  = snd (gen_causal_data log seed
           (snd (gen_majors_data (snd (gen_skillset_data (snd (gen_companies_data seed s))))))).
Proof.
  unfold main_with_seed.
  destruct (gen_companies_data seed s) as [cd s1]; cbn [fst snd].
  destruct (gen_skillset_data s1) as [sd s2]; cbn [fst snd].
  destruct (gen_majors_data s2) as [md s3]; cbn [fst snd].
  destruct (gen_causal_data log seed s3) as [c s4]; reflexivity.
Qed.

(** ** Further properties of the program and of the library code it runs *)

(** Every raw draw of the MT19937 generator from a well-formed state is a
    32-bit word, and the state stays well-formed. *)
Theorem next_uint32_word32 (s : mt_state) :
  mt_wf s -> word32 (fst (next_uint32 s)) /\ mt_wf (snd (next_uint32 s)).
Proof. apply next_uint32_wf. Qed.

Lemma next_uint32_word32_witness :
  mt_wf (np_seed 42 {| key := []; pos := O; has_gauss := false; gauss := 0%float |}) /\
  word32 (fst (next_uint32 (np_seed 42 {| key := []; pos := O; has_gauss := false; gauss := 0%float |}))).
Proof.
  split; [apply np_seed_wf|].
  apply (next_uint32_word32 (np_seed 42 {| key := []; pos := O; has_gauss := false; gauss := 0%float |})).
  apply np_seed_wf.
Defined.

(** However the run starts, the global generator is well-formed after each
    stage of the script: after the employer, skill, major and regression
    tables. *)
Theorem main_states_wf log ols fmt (seed : Z) (s : mt_state) :
  let s1 := snd (gen_companies_data seed s) in
  let s2 := snd (gen_skillset_data s1) in
  let s3 := snd (gen_majors_data s2) in
  mt_wf s1 /\ mt_wf s2 /\ mt_wf s3 /\ mt_wf (snd (main_with_seed log ols fmt seed s)).
Proof.
  cbv zeta.
  pose proof (gen_companies_data_wf seed s) as H1.
  pose proof (outer_rows_wf 40 150 mk_skill job_titles _ H1) as H2.
  pose proof (outer_rows_wf 20 100 mk_major majors_options _ H2) as H3.
  unfold gen_skillset_data, gen_majors_data.
  rewrite main_final_state; unfold gen_skillset_data, gen_majors_data.
  split; [exact H1 | split; [exact H2 | split; [exact H3 | apply gen_causal_data_wf]]].
Qed.

(** Distinct valid seeds give distinct generator states: the seed is the
    first key word. *)
Theorem np_seed_injective (a b : Z) (s s' : mt_state) :
  valid_seed a -> valid_seed b -> np_seed a s = np_seed b s' -> a = b.
Proof.
  intros Ha Hb H.
  apply (f_equal (fun st => hd 0 (key st))) in H.
  unfold np_seed, RK_STATE_LEN in H; cbn [key] in H.
  change (Z.land a MASK32 = Z.land b MASK32) in H.
  unfold valid_seed in *.
  replace MASK32 with (Z.ones 32) in H by reflexivity.
  rewrite !Z.land_ones in H by lia.
  rewrite !Z.mod_small in H by (unfold MASK32 in *; lia).
  exact H.
Qed.

Lemma np_seed_injective_witness :
  valid_seed 7 /\ valid_seed 7 /\
  np_seed 7 {| key := []; pos := O; has_gauss := false; gauss := 0%float |}
  = np_seed 7 {| key := [1]; pos := 3%nat; has_gauss := true; gauss := 2%float |} /\ 7 = 7.
Proof.
  assert (Hv : valid_seed 7) by (unfold valid_seed, MASK32; lia).
  split; [exact Hv | split; [exact Hv | split; [reflexivity|]]].
  apply (np_seed_injective 7 7 {| key := []; pos := O; has_gauss := false; gauss := 0%float |}
           {| key := [1]; pos := 3%nat; has_gauss := true; gauss := 2%float |} Hv Hv).
  reflexivity.
Defined.

Lemma inner_rows_pairs {R : Type} (proj : R -> string * string) lo hi
    (mk : string -> string -> Z -> R) job vals s :
  (forall j v x, proj (mk j v x) = (j, v)) ->
  map proj (fst (inner_rows lo hi mk job vals s)) = map (fun v => (job, v)) vals.
Proof.
  intros Hp; revert s; induction vals as [|v vs IH]; intros s; simpl; [reflexivity|].
  destruct (randint lo hi s) as [x s1].
  specialize (IH s1); destruct (inner_rows lo hi mk job vs s1) as [rest s2].
  simpl in *; rewrite Hp, IH; reflexivity.
Qed.

Lemma outer_rows_pairs {R : Type} (proj : R -> string * string) lo hi
    (mk : string -> string -> Z -> R) d s :
  (forall j v x, proj (mk j v x) = (j, v)) ->
  map proj (fst (outer_rows lo hi mk d s)) = config_pairs d.
Proof.
  intros Hp; revert s; induction d as [|[job vals] d IH]; intros s; simpl; [reflexivity|].
  pose proof (inner_rows_pairs proj lo hi mk job vals s Hp) as Hi.
  destruct (inner_rows lo hi mk job vals s) as [rows s1].
  specialize (IH s1); destruct (outer_rows lo hi mk d s1) as [rest s2].
  simpl in *; rewrite map_app, Hi, IH; reflexivity.
Qed.

Lemma skillset_pairs log ols fmt seed s :
  map (fun x => (skill_Job_Title x, Skill x)) (skillset_data (fst (main_with_seed log ols fmt seed s)))
  = config_pairs job_titles.
Proof.
  rewrite skillset_data_eq; unfold gen_skillset_data.
  apply outer_rows_pairs; reflexivity.
Qed.

Lemma skillset_frequency_range log ols fmt seed s :
  Forall (fun x => 40 <= Frequency x < 150) (skillset_data (fst (main_with_seed log ols fmt seed s))).
Proof.
  rewrite skillset_data_eq; unfold gen_skillset_data.
  apply (outer_rows_Forall (fun x => 40 <= x < 150) Frequency); [reflexivity|].
  intros s'; apply randint_range; unfold MASK32; lia.
Qed.

(** The three category tables list the configuration in order: employer rows
    follow the [companies] list, and skill and major rows follow the
    [(job title, value)] pairs of [job_titles] and [majors_options] in dict and
    list order, for every seed and starting state. *)
Theorem tables_follow_config log ols fmt (seed : Z) (s : mt_state) :
  let r := fst (main_with_seed log ols fmt seed s) in
  map Company (companies_data r) = companies /\
  map (fun x => (skill_Job_Title x, Skill x)) (skillset_data r) = config_pairs job_titles /\
  map (fun m => (major_Job_Title m, Major m)) (majors_data r) = config_pairs majors_options.
Proof.
  cbv zeta; split; [|split; [apply skillset_pairs|]].
  - rewrite companies_data_eq; unfold gen_companies_data; cbv zeta.
    pose proof (draws_length (List.length companies) (randint 50 200) (np_seed seed s)) as Hl.
    destruct (draws (List.length companies) (randint 50 200) (np_seed seed s)) as [gs s2].
    cbn [fst] in *; rewrite map_map; cbn [Company].
    apply map_fst_combine_le; lia.
  - rewrite majors_data_eq; unfold gen_majors_data.
    apply outer_rows_pairs; reflexivity.
Qed.

(** The heatmap pivot of line 92 never meets pandas' duplicate-entry error
    (no job title lists a skill twice) and has one row per distinct skill (21:
    the skills shared by two job titles are merged) and one column per job
    title, in sorted order. *)
Theorem heatmap_shape log ols fmt (seed : Z) (s : mt_state) :
  let rows := skillset_data (fst (main_with_seed log ols fmt seed s)) in
  exists h, heatmap_data rows = Some h /\
    hm_columns h = ["Aerospace Engineer"; "Data Scientist"; "Electrical Engineer";
                    "Mechanical Engineer"; "Software Engineer"]%string /\
    hm_index h = sorted_unique (map snd (config_pairs job_titles)) /\
    List.length (hm_index h) = 21%nat /\
    List.length (hm_values h) = 21%nat /\
    Forall (fun row => List.length row = 5%nat) (hm_values h).
Proof.
  cbv zeta.
  pose proof (skillset_pairs log ols fmt seed s) as Hp.
  set (rows := skillset_data (fst (main_with_seed log ols fmt seed s))) in *.
  clearbody rows.
  assert (H1 : map (fun r => (Skill r, skill_Job_Title r)) rows
               = map (fun p => (snd p, fst p)) (config_pairs job_titles))
    by (rewrite <- Hp, map_map; reflexivity).
  assert (H2 : map Skill rows = map snd (config_pairs job_titles))
    by (rewrite <- Hp, map_map; reflexivity).
  assert (H3 : map skill_Job_Title rows = map fst (config_pairs job_titles))
    by (rewrite <- Hp, map_map; reflexivity).
  unfold heatmap_data; rewrite H1, H2, H3.
  replace (has_dup pair_eqb (map (fun p => (snd p, fst p)) (config_pairs job_titles)))
    with false by (vm_compute; reflexivity).
  eexists; split; [reflexivity|]; cbn [hm_index hm_columns hm_values].
  split; [vm_compute; reflexivity|].
  split; [reflexivity|].
  split; [vm_compute; reflexivity|].
  split; [rewrite length_map; vm_compute; reflexivity|].
  apply Forall_forall; intros row Hrow; apply in_map_iff in Hrow.
  destruct Hrow as [i [<- _]]; rewrite length_map; vm_compute; reflexivity.
Qed.

(** A heatmap cell is [0] exactly where the job title does not list the
    skill; a listed skill shows its frequency, in [[40,150)], so a zero in the
    heatmap always means "not listed". *)
Theorem heatmap_cell_zero_iff_unlisted log ols fmt (seed : Z) (s : mt_state) (i c : string) :
  let rows := skillset_data (fst (main_with_seed log ols fmt seed s)) in
  (In (c, i) (config_pairs job_titles) /\ 40 <= heat_cell rows i c < 150) \/
  (~ In (c, i) (config_pairs job_titles) /\ heat_cell rows i c = 0).
Proof.
  cbv zeta.
  pose proof (skillset_pairs log ols fmt seed s) as Hp.
  pose proof (skillset_frequency_range log ols fmt seed s) as Hr.
  set (rows := skillset_data (fst (main_with_seed log ols fmt seed s))) in *.
  clearbody rows; unfold heat_cell.
  destruct (find (fun r => String.eqb (Skill r) i && String.eqb (skill_Job_Title r) c) rows)
    as [r|] eqn:E.
  - apply find_some in E; destruct E as [Hin Hf].
    apply andb_prop in Hf; destruct Hf as [Hi Hc].
    apply String.eqb_eq in Hi, Hc.
    left; split.
    + rewrite <- Hp, <- Hi, <- Hc; apply in_map_iff; exists r; auto.
    + rewrite Forall_forall in Hr; apply Hr, Hin.
  - right; split; [|reflexivity].
    intros Hin; rewrite <- Hp in Hin; apply in_map_iff in Hin.
    destruct Hin as [r [Hr' Hin]]; injection Hr' as Hc Hi.
    pose proof (find_none _ _ E r Hin) as Hf; cbn beta in Hf.
    rewrite Hi, Hc, !String.eqb_refl in Hf; discriminate.
Qed.

(** [str.format] returns a template with no braces unchanged. *)
Theorem py_format_brace_free fmt (t : string) (kw : list (string * float)) :
  Forall (fun c => c <> "{"%char /\ c <> "}"%char) (list_ascii_of_string t) ->
  py_format fmt t kw = Some t.
Proof.
  unfold py_format; induction t as [|c t IH]; intros H; [reflexivity|].
  inversion H as [|? ? [Hc1 Hc2] Ht]; subst.
  cbn [format_scan].
  apply Ascii.eqb_neq in Hc1, Hc2; rewrite Hc1, Hc2, IH by exact Ht; reflexivity.
Qed.

Lemma py_format_brace_free_witness :
  Forall (fun c => c <> "{"%char /\ c <> "}"%char) (list_ascii_of_string "p < 0.05"%string) /\
  py_format (fun _ _ => EmptyString) "p < 0.05"%string [] = Some "p < 0.05"%string.
Proof.
  assert (H : Forall (fun c => c <> "{"%char /\ c <> "}"%char)
                (list_ascii_of_string "p < 0.05"%string))
    by (repeat constructor; discriminate).
  split; [exact H | apply (py_format_brace_free (fun _ _ => EmptyString)); exact H].
Defined.

Lemma format_scan_field fmt kw (f w r : string) :
  Forall (fun c => c <> "}"%char) (list_ascii_of_string w) ->
  format_scan fmt kw (Some f) (String.append w r) = format_scan fmt kw (Some (String.append f w)) r.
Proof.
  revert f; induction w as [|c w IH]; intros f H; cbn [String.append].
  - replace (String.append f EmptyString) with f; [reflexivity|].
    clear; induction f as [|x f IH]; simpl; [reflexivity | rewrite <- IH; reflexivity].
  - inversion H as [|? ? Hc Hw]; subst.
    cbn [format_scan]; apply Ascii.eqb_neq in Hc; rewrite Hc.
    rewrite IH by exact Hw.
    rewrite <- append_assoc_str; reflexivity.
Qed.

Lemma split_colon_none (w : string) :
  Forall (fun c => c <> ":"%char) (list_ascii_of_string w) -> split_colon w = (w, EmptyString).
Proof.
  induction w as [|c w IH]; intros H; [reflexivity|].
  inversion H as [|? ? Hc Hw]; subst; cbn [split_colon].
  apply Ascii.eqb_neq in Hc; rewrite Hc, IH by exact Hw; reflexivity.
Qed.


